(** * ai-generate-pr: a shallow embedding of [createPullRequest.ts]

    The script shells out to git, asks a language model for a pull-request
    message and posts it to the hosting API.  This development embeds

    - the JavaScript string primitives the script relies on
      ([split], [join], [trim], truthiness, template rendering),
    - the outside world (process environment, [execSync], the LLM client,
      [fetch]) as an oracle that answers every call from the history of
      calls so far,
    - the six functions of the script in a small exception-and-trace monad,

    and proves the properties stated about them.  Console output changes
    neither control flow nor results and is left out. *)

From Stdlib Require Import List NArith Ascii String Lia.
From stdpp Require Import base option list gmap strings.
From Equations Require Import Equations.

Local Open Scope N_scope.
Local Open Scope list_scope.

(** ** JavaScript strings *)

(** A JavaScript string is a sequence of UTF-16 code units. *)
Abbreviation jsstring := (list N).

Module JsString.

(** Source literals are ASCII; [js] turns one into code units. *)
Definition js (s : string) : jsstring :=
  List.map N_of_ascii (list_ascii_of_string s).

(** ECMAScript [WhiteSpace] and [LineTerminator] code points, the set
    [String.prototype.trim] strips. *)
Definition is_white_space (c : N) : bool :=
  (c =? 9) || (c =? 10) || (c =? 11) || (c =? 12) || (c =? 13) ||
  (c =? 32) || (c =? 160) || (c =? 5760) ||
  ((8192 <=? c) && (c <=? 8202)) ||
  (c =? 8232) || (c =? 8233) || (c =? 8239) || (c =? 8287) ||
  (c =? 12288) || (c =? 65279).

Fixpoint trimStart (s : jsstring) : jsstring :=
  match s with
  | [] => []
  | c :: s' => if is_white_space c then trimStart s' else s
  end.

Definition trimEnd (s : jsstring) : jsstring :=
  rev (trimStart (rev s)).

(** [s.trim()] *)
Definition trim (s : jsstring) : jsstring := trimEnd (trimStart s).

(** [p] occurs in [s] at index 0. *)
Fixpoint starts_with (p s : jsstring) : bool :=
  match p, s with
  | [], _ => true
  | _ :: _, [] => false
  | a :: p', b :: s' => (a =? b) && starts_with p' s'
  end.

(** [StringIndexOf(s, sep, 0)]: the smallest index at which [sep] occurs. *)
Fixpoint indexOf (sep s : jsstring) : option nat :=
  match s with
  | [] => if starts_with sep [] then Some 0%nat else None
  | _ :: s' => if starts_with sep s then Some 0%nat else S <$> indexOf sep s'
  end.

(** The loop of [String.prototype.split] for a non-empty separator
    [c :: sep']: cut at the next occurrence, continue after it. *)
Equations? split_loop (c : N) (sep' : jsstring) (s : jsstring) : list jsstring
  by wf (length s) lt :=
  split_loop c sep' s with Logic.inspect (indexOf (c :: sep') s) := {
    | exist _ None _ => [s]
    | exist _ (Some j) H =>
        take j s :: split_loop c sep' (drop (j + length (c :: sep')) s) }.
Proof.
  assert (forall p t, starts_with p t = true -> (length p <= length t)%nat) as Hsw.
  { induction p as [|a p IH]; intros [|b t]; simpl; try lia; try discriminate.
    intros Hp. apply andb_true_iff in Hp as [_ Hp]. apply IH in Hp. lia. }
  assert (forall t k, indexOf (c :: sep') t = Some k ->
                      (k + length (c :: sep') <= length t)%nat) as Hb.
  { induction t as [|b t IH]; intros k; simpl; [discriminate|].
    destruct ((c =? b) && starts_with sep' t) eqn:E.
    - intros [= <-]. apply andb_true_iff in E as [_ E]. apply Hsw in E. lia.
    - destruct (indexOf (c :: sep') t) as [k'|]; simpl; [|discriminate].
      intros [= <-]. specialize (IH k' eq_refl). simpl in IH. lia. }
  apply Hb in H. rewrite length_drop. simpl in *. lia.
Qed.

(** [s.split(sep)] with a string separator and no limit. *)
Definition split (sep s : jsstring) : list jsstring :=
  match sep with
  | [] => List.map (fun c => [c]) s
  | c :: sep' => split_loop c sep' s
  end.

(** [parts.join(sep)] *)
Fixpoint join (sep : jsstring) (parts : list jsstring) : jsstring :=
  match parts with
  | [] => []
  | [p] => p
  | p :: rest => p ++ sep ++ join sep rest
  end.

(** Truthiness of a value of type [string | undefined]. *)
Definition truthy (v : option jsstring) : bool :=
  match v with
  | None | Some [] => false
  | Some (_ :: _) => true
  end.

(** A value of type [string | undefined] inside a template literal. *)
Definition render (v : option jsstring) : jsstring :=
  match v with
  | None => js "undefined"
  | Some s => s
  end.

End JsString.
Import JsString.


(** The separator of the message parser: a blank line, two line feeds. *)
Definition NLNL : jsstring := [10; 10].

(** ** Values exchanged with the outside world *)

(** An [Error] object, reduced to what the script can observe of it. *)
Record js_error := JsError { err_name : jsstring; err_message : jsstring }.

Definition new_Error (msg : jsstring) : js_error := JsError (js "Error") msg.
Definition new_TypeError (msg : jsstring) : js_error := JsError (js "TypeError") msg.

(** [`${error}`], that is [Error.prototype.toString]. *)
Definition error_toString (e : js_error) : jsstring :=
  match err_name e, err_message e with
  | [], m => m
  | n, [] => n
  | n, m => n ++ js ": " ++ m
  end.

(** A content block of an LLM message: the SDK's tagged union. *)
Inductive content_block :=
| TextBlock (text : jsstring)
| ToolUseBlock (id name : jsstring).

Record llm_message := { content : list content_block }.

Record system_block := {
  sb_type : jsstring;
  sb_text : jsstring;
  sb_cache_control : jsstring }.

Record llm_request := {
  api_key : jsstring;
  model : jsstring;
  max_tokens : N;
  temperature : N;
  system : list system_block;
  user_text : jsstring }.

(** The object handed to [JSON.stringify]; serialisation itself is not
    modelled. *)
Inductive payload :=
| PullPayload (title body head base : jsstring)
| IssuePayload (title body : jsstring) (labels : list jsstring).

Record http_request := {
  req_method : jsstring;
  req_headers : list (jsstring * jsstring);
  req_body : payload }.

(** What [response.json()] resolves to, seen through its [number]
    property: [null] has none, reading it throws. *)
Inductive json :=
| JNull
| JValue (number : jsstring).

Record http_response := {
  status : N;
  resp_text : js_error + jsstring;
  resp_json : js_error + json }.

(** [response.ok]: the status is in the range 200-299. *)
Definition response_ok (r : http_response) : bool :=
  (200 <=? status r) && (status r <=? 299).

(** One call into the outside world, with the answer it got. *)
Inductive event :=
| EvExec (cmd : jsstring) (res : js_error + jsstring)
| EvLLM (req : llm_request) (res : js_error + llm_message)
| EvFetch (url : jsstring) (req : http_request) (res : js_error + http_response).

(** The outside world.  Every call is answered from the history of the
    calls made so far, so a command may succeed once and fail later. *)
Record World := {
  env : gmap string jsstring;
  sh : list event -> jsstring -> js_error + jsstring;
  llm : list event -> llm_request -> js_error + llm_message;
  http : list event -> jsstring -> http_request -> js_error + http_response }.

(** ** The monad of the script: exceptions and a trace of calls *)

Inductive outcome (A : Type) :=
| Return (a : A)
| Throw (e : js_error).
Arguments Return {A} a.
Arguments Throw {A} e.

(** A computation reads the world and the history so far, and yields its
    outcome together with the calls it issued, oldest first. *)
Definition M (A : Type) : Type := World -> list event -> outcome A * list event.

#[export] Instance M_ret : MRet M := fun A a _ _ => (Return a, []).

#[export] Instance M_bind : MBind M := fun A B k m w h =>
  match m w h with
  | (Return a, t) => let '(r, t') := k a w (h ++ t) in (r, t ++ t')
  | (Throw e, t) => (Throw e, t)
  end.

Definition throw {A : Type} (e : js_error) : M A := fun _ _ => (Throw e, []).

(** [try { m } catch (error) { handler error }] *)
Definition try_catch {A : Type} (m : M A) (handler : js_error -> M A) : M A :=
  fun w h =>
    match m w h with
    | (Return a, t) => (Return a, t)
    | (Throw e, t) => let '(r, t') := handler e w (h ++ t) in (r, t ++ t')
    end.

(** [process.env] *)
Definition process_env : M (gmap string jsstring) := fun w _ => (Return (env w), []).

Definition of_sum {A : Type} (r : js_error + A) : outcome A :=
  match r with
  | inl e => Throw e
  | inr a => Return a
  end.

(** Awaiting a promise that is already settled. *)
Definition await {A : Type} (r : js_error + A) : M A := fun _ _ => (of_sum r, []).

(** [execSync(cmd).toString()]: throws when the command exits non-zero. *)
Definition execSync (cmd : jsstring) : M jsstring := fun w h =>
  let r := sh w h cmd in (of_sum r, [EvExec cmd r]).

(** [anthropicClient.beta.promptCaching.messages.create(req)] *)
Definition messages_create (req : llm_request) : M llm_message := fun w h =>
  let r := llm w h req in (of_sum r, [EvLLM req r]).

(** [fetch(url, req)] *)
Definition fetch (url : jsstring) (req : http_request) : M http_response := fun w h =>
  let r := http w h url req in (of_sum r, [EvFetch url req r]).

(** The outcome and the issued calls of a run. *)
Definition result_of {A : Type} (x : outcome A * list event) : outcome A := fst x.
Definition calls_of {A : Type} (x : outcome A * list event) : list event := snd x.

(** ** The script *)

Record PullRequestOptions := {
  pr_owner : jsstring;
  pr_repo : jsstring;
  pr_head : jsstring;
  pr_base : jsstring }.

Record GitHubIssueOptions := {
  is_owner : jsstring;
  is_repo : jsstring;
  is_title : jsstring;
  is_body : jsstring;
  is_labels : option (list jsstring) }.

(** The [{ title, body }] object [generatePRMessage] resolves to. *)
Record generated_message := { title : jsstring; body : jsstring }.

Definition SYSTEM_PROMPT : system_block := {|
  sb_type := js "text";
  sb_text := js "You are a helpful assistant that generates clear and concise pull request messages. Use markdown.";
  sb_cache_control := js "ephemeral" |}.

(** [getCurrentBranch], lines 28-46. *)
Definition getCurrentBranch : M jsstring :=
  e ← process_env;
  if truthy (e !! "VERCEL") then
    let vercelBranch := e !! "VERCEL_GIT_COMMIT_REF" in
    if negb (truthy vercelBranch) then
      throw (new_Error (js "Unable to determine branch name in Vercel environment"))
    else
      (* a truthy value is a string *)
      mret (default [] vercelBranch)
  else
    try_catch
      (out ← execSync (js "git rev-parse --abbrev-ref HEAD");
       mret (trim out))
      (fun _ => throw (new_Error (js "Unable to determine branch name"))).

(** [generatePRMessage], lines 51-94. *)
Definition generatePRMessage : M generated_message :=
  e ← process_env;
  let apiKey := e !! "ANTHROPIC_API_KEY" in
  if negb (truthy apiKey) then
    throw (new_Error (js "ANTHROPIC_API_KEY environment variable is not set"))
  else
    diff ← execSync (js "git diff origin/main");
    message ← messages_create {|
      api_key := default [] apiKey;
      model := js "claude-3-5-sonnet-latest";
      max_tokens := 1000;
      temperature := 0;
      system := [SYSTEM_PROMPT];
      user_text :=
        js "Generate a pull request message for the following changes between main and feature branches:"
        ++ NLNL ++ diff |};
    responseText ←
      match content message with
      | [] => throw (new_TypeError (js "Cannot read properties of undefined (reading 'type')"))
      | TextBlock text :: _ => mret text
      | ToolUseBlock _ _ :: _ => mret []
      end;
    match split NLNL responseText with
    | [] => throw (new_TypeError (js "Cannot read properties of undefined (reading 'trim')"))
    | title :: bodyParts =>
        mret {| title := trim title; body := trim (join NLNL bodyParts) |}
    end.

(** [createPR], lines 99-138. *)
Definition createPR (options : PullRequestOptions) (message : generated_message) : M json :=
  currentBranch ← getCurrentBranch;
  e ← process_env;
  let token :=
    if bool_decide (currentBranch = js "raffi")
    then e !! "RAFFI_PAT_TOKEN" else e !! "PAT_TOKEN" in
  response ← fetch
    (js "https://api.github.com/repos/" ++ pr_owner options ++ js "/"
       ++ pr_repo options ++ js "/pulls")
    {| req_method := js "POST";
       req_headers :=
         [ (js "Accept", js "application/vnd.github.v3+json");
           (js "Authorization", js "token " ++ render token);
           (js "Content-Type", js "application/json") ];
       req_body :=
         PullPayload (title message) (body message) (pr_head options) (pr_base options) |};
  if negb (response_ok response) then
    errorText ← await (resp_text response);
    throw (new_Error (js "Failed to create PR: " ++ errorText))
  else
    prData ← await (resp_json response);
    match prData with
    | JNull => throw (new_TypeError (js "Cannot read properties of null (reading 'number')"))
    | JValue _ => mret prData
    end.

(** [syncWithMain], lines 143-173. *)
Definition syncWithMain : M unit :=
  currentBranch ← getCurrentBranch;
  _ ← try_catch
        (execSync (js "git push origin " ++ currentBranch))
        (fun error =>
           throw (new_Error (js "Please ensure your changes are committed and try again: "
                               ++ error_toString error)));
  _ ← execSync (js "git fetch origin");
  try_catch
    (_ ← execSync (js "git rebase origin/main");
     _ ← execSync (js "git push --force-with-lease");
     mret tt)
    (fun _ =>
       _ ← execSync (js "git rebase --abort");
       throw (new_Error (js "Please manually rebase your branch on main and resolve conflicts before creating PR"))).

(** [createPRToMain], lines 178-215. *)
Definition createPRToMain : M unit :=
  try_catch
    (status ← execSync (js "git status --porcelain");
     _ ← (if truthy (Some status) then
            _ ← execSync (js "git add .");
            _ ← execSync (js "git commit -m " ++ [34] ++ js "sync" ++ [34]);
            _ ← execSync (js "git push --force-with-lease");
            mret tt
          else mret tt);
     currentBranch ← getCurrentBranch;
     _ ← syncWithMain;
     prMessage ← generatePRMessage;
     _ ← createPR
           {| pr_owner := js "modern-realty-inc";
              pr_repo := js "plug-chat";
              pr_head := currentBranch;
              pr_base := js "main" |}
           prMessage;
     mret tt)
    (fun error => throw error).

(** [createGitHubIssue], lines 220-257. *)
Definition createGitHubIssue (options : GitHubIssueOptions) : M unit :=
  currentBranch ← getCurrentBranch;
  e ← process_env;
  let token :=
    if bool_decide (currentBranch = js "raffi")
    then e !! "RAFFI_PAT_TOKEN" else e !! "PAT_TOKEN" in
  response ← fetch
    (js "https://api.github.com/repos/" ++ is_owner options ++ js "/"
       ++ is_repo options ++ js "/issues")
    {| req_method := js "POST";
       req_headers :=
         [ (js "Accept", js "application/vnd.github.v3+json");
           (js "Authorization", js "token " ++ render token);
           (js "Content-Type", js "application/json") ];
       req_body :=
         IssuePayload (is_title options) (is_body options) (default [] (is_labels options)) |};
  if negb (response_ok response) then
    errorText ← await (resp_text response);
    throw (new_Error (js "Failed to create issue: " ++ errorText))
  else
    issueData ← await (resp_json response);
    match issueData with
    | JNull => throw (new_TypeError (js "Cannot read properties of null (reading 'number')"))
    | JValue _ => mret tt
    end.

(** ** Vocabulary of the statements *)

(** The git commands [syncWithMain] issues. *)
Definition GIT_PUSH_ORIGIN (branch : jsstring) : jsstring := js "git push origin " ++ branch.
Definition GIT_FETCH : jsstring := js "git fetch origin".
Definition GIT_REBASE : jsstring := js "git rebase origin/main".
Definition GIT_FORCE_PUSH : jsstring := js "git push --force-with-lease".
Definition GIT_REBASE_ABORT : jsstring := js "git rebase --abort".
Definition GIT_BRANCH_QUERY : jsstring := js "git rev-parse --abbrev-ref HEAD".

(** The errors the script raises itself. *)
Definition SYNC_ERROR (cause : js_error) : js_error :=
  new_Error (js "Please ensure your changes are committed and try again: "
               ++ error_toString cause).
Definition CONFLICT_ERROR : js_error :=
  new_Error (js "Please manually rebase your branch on main and resolve conflicts before creating PR").
Definition MISSING_KEY_ERROR : js_error :=
  new_Error (js "ANTHROPIC_API_KEY environment variable is not set").

(** [text] has a blank-line boundary between [pre] and [post], and none
    that starts earlier. *)
Definition first_boundary (text pre post : jsstring) : Prop :=
  text = pre ++ NLNL ++ post /\
  forall pre' post', text = pre' ++ NLNL ++ post' -> (length pre <= length pre')%nat.

Definition no_boundary (text : jsstring) : Prop :=
  forall pre post, text <> pre ++ NLNL ++ post.

(** The first paragraph of [text]: what precedes the first boundary, or
    all of [text] when there is none. *)
Definition first_paragraph (text para : jsstring) : Prop :=
  (exists post, first_boundary text para post) \/ (no_boundary text /\ para = text).

(** The messages the model answered with. *)
Definition answers (calls : list event) : list llm_message :=
  List.flat_map
    (fun ev => match ev with EvLLM _ (inr msg) => [msg] | _ => [] end) calls.

(** The responses received from the hosting API. *)
Definition responses (calls : list event) : list http_response :=
  List.flat_map
    (fun ev => match ev with EvFetch _ _ (inr resp) => [resp] | _ => [] end) calls.

(** The values of the [Authorization] header of the requests sent. *)
Definition authorization_of (ev : event) : list jsstring :=
  match ev with
  | EvFetch _ req _ =>
      List.map snd
        (List.filter (fun kv => bool_decide (fst kv = js "Authorization")) (req_headers req))
  | _ => []
  end.

Definition authorizations (calls : list event) : list jsstring :=
  List.flat_map authorization_of calls.

(** Token selection in the words of the specification: the one designated
    branch name selects the alternate credential, every other name the
    default one.  To be compared with what [createPR] and
    [createGitHubIssue] send. *)
Definition token_for_branch (e : gmap string jsstring) (branch : jsstring) : option jsstring :=
  if bool_decide (branch = js "raffi") then e !! "RAFFI_PAT_TOKEN" else e !! "PAT_TOKEN".

(** What either hosting operation sends, by the outcome of the branch
    resolution it starts with. *)
Definition expected_authorizations (w : World) (h : list event) : list jsstring :=
  match result_of (getCurrentBranch w h) with
  | Return b => [js "token " ++ render (token_for_branch (env w) b)]
  | Throw _ => []
  end.

(** What the handler of the rebase block reports, given the answer to the
    abort command: the conflict error, unless the abort itself failed. *)
Definition handler_report (abort : js_error + jsstring) : outcome unit :=
  match abort with
  | inr _ => Throw CONFLICT_ERROR
  | inl e => Throw e
  end.

(** The runs of [syncWithMain], by the step that ends them; [t] is what
    resolving the branch issued. *)
Inductive sync_run (t : list event) : outcome unit * list event -> Prop :=
| SyncNoBranch e :
    sync_run t (Throw e, t)
| SyncPushFailed b e :
    sync_run t (Throw (SYNC_ERROR e), t ++ [EvExec (GIT_PUSH_ORIGIN b) (inl e)])
| SyncFetchFailed b o1 e :
    sync_run t (Throw e,
                t ++ [EvExec (GIT_PUSH_ORIGIN b) (inr o1); EvExec GIT_FETCH (inl e)])
| SyncRebaseFailed b o1 o2 e a :
    sync_run t (handler_report a,
                t ++ [EvExec (GIT_PUSH_ORIGIN b) (inr o1); EvExec GIT_FETCH (inr o2);
                      EvExec GIT_REBASE (inl e); EvExec GIT_REBASE_ABORT a])
| SyncForcePushFailed b o1 o2 o3 e a :
    sync_run t (handler_report a,
                t ++ [EvExec (GIT_PUSH_ORIGIN b) (inr o1); EvExec GIT_FETCH (inr o2);
                      EvExec GIT_REBASE (inr o3); EvExec GIT_FORCE_PUSH (inl e);
                      EvExec GIT_REBASE_ABORT a])
| SyncDone b o1 o2 o3 o4 :
    sync_run t (Return tt,
                t ++ [EvExec (GIT_PUSH_ORIGIN b) (inr o1); EvExec GIT_FETCH (inr o2);
                      EvExec GIT_REBASE (inr o3); EvExec GIT_FORCE_PUSH (inr o4)]).

(** The remaining command lines of the script. *)
Definition GIT_STATUS : jsstring := js "git status --porcelain".
Definition GIT_ADD : jsstring := js "git add .".
Definition GIT_COMMIT : jsstring := js "git commit -m " ++ [34] ++ js "sync" ++ [34].
Definition GIT_DIFF : jsstring := js "git diff origin/main".

(** The fixed part of the prompt. *)
Definition PROMPT : jsstring :=
  js "Generate a pull request message for the following changes between main and feature branches:".

(** The endpoint [createPRToMain] posts to. *)
Definition PLUG_CHAT_PULLS : jsstring :=
  js "https://api.github.com/repos/modern-realty-inc/plug-chat/pulls".

(** Lines 260-267, the file run as a script with arguments [argv]:
    [Some 1] stands for [process.exit(1)], [None] for a process that is
    left to end by itself. *)
Definition script (argv : list jsstring) (w : World) (h : list event)
    : option N * list event :=
  if bool_decide (js "--sync" ∈ argv) then
    match syncWithMain w h with
    | (Return _, t) => (None, t)
    | (Throw _, t) => (Some 1, t)
    end
  else (None, []).

(** A call that was answered without an error; for the hosting API, with
    a status in 200-299. *)
Definition succeeded (ev : event) : Prop :=
  match ev with
  | EvExec _ (inr _) => True
  | EvLLM _ (inr _) => True
  | EvFetch _ _ (inr resp) => response_ok resp = true
  | _ => False
  end.

(** A call that leaves the machine: to the model or to the hosting API. *)
Definition is_remote (ev : event) : Prop :=
  match ev with
  | EvExec _ _ => False
  | _ => True
  end.

(** A call that runs the command line [cmd]. *)
Definition runs (cmd : jsstring) (ev : event) : Prop :=
  exists r, ev = EvExec cmd r.

(** Every call [m] issues satisfies [P], in every world. *)
Definition emits {A : Type} (P : event -> Prop) (m : M A) : Prop :=
  forall w h, Forall P (calls_of (m w h)).

(** [m] returns only from runs all of whose calls succeeded. *)
Definition clean {A : Type} (m : M A) : Prop :=
  forall w h a, result_of (m w h) = Return a -> Forall succeeded (calls_of (m w h)).

(** [m] never returns: every run ends in an exception. *)
Definition fails {A : Type} (m : M A) : Prop :=
  forall w h a, result_of (m w h) <> Return a.

(** [m] issues a call satisfying [Q] only when all its earlier calls
    succeeded. *)
Definition gated {A : Type} (Q : event -> Prop) (m : M A) : Prop :=
  forall w h t1 ev t2,
    calls_of (m w h) = t1 ++ ev :: t2 -> Q ev -> Forall succeeded t1.

(** [m] returns only from runs that issued a call satisfying [Q]. *)
Definition reaches {A : Type} (Q : event -> Prop) (m : M A) : Prop :=
  forall w h a, result_of (m w h) = Return a -> Exists Q (calls_of (m w h)).

(** The model answered. *)
Definition is_answer (ev : event) : Prop :=
  exists req msg, ev = EvLLM req (inr msg).

(** The hosting API answered with a status in 200-299. *)
Definition is_accepted (ev : event) : Prop :=
  exists url req resp, ev = EvFetch url req (inr resp) /\ response_ok resp = true.

(** The calls [createPRToMain] can issue: ten git command lines, the
    request to the model, and a POST of a pull request against [main] to
    one fixed endpoint. *)
Definition workflow_call (ev : event) : Prop :=
  runs GIT_STATUS ev \/ runs GIT_ADD ev \/ runs GIT_COMMIT ev \/
  runs GIT_FORCE_PUSH ev \/ runs GIT_BRANCH_QUERY ev \/
  (exists b, runs (GIT_PUSH_ORIGIN b) ev) \/
  runs GIT_FETCH ev \/ runs GIT_REBASE ev \/ runs GIT_REBASE_ABORT ev \/
  runs GIT_DIFF ev \/
  (exists req r, ev = EvLLM req r) \/
  (exists req r t b head,
     ev = EvFetch PLUG_CHAT_PULLS req r /\
     req_method req = js "POST" /\
     req_body req = PullPayload t b head (js "main")).

(** A call that is not a request to the hosting API. *)
Definition no_fetch (ev : event) : Prop :=
  forall url req r, ev <> EvFetch url req r.

(** No code unit at the front of [s] is white space. *)
Definition starts_clean (s : jsstring) : Prop :=
  match s with
  | [] => True
  | c :: _ => is_white_space c = false
  end.

(** ** Sample worlds *)

(** An error as [execSync] throws it. *)
Definition command_failed (cmd : jsstring) : js_error :=
  new_Error (js "Command failed: " ++ cmd).

(** A world in which the commands of [failing] exit non-zero at every call,
    every other command prints [stdout], the model answers [blocks] and
    the hosting API answers [resp]. *)
Definition sample_world (e : gmap string jsstring) (failing : list jsstring)
    (stdout : jsstring) (blocks : list content_block) (resp : http_response) : World := {|
  env := e;
  sh := fun _ cmd =>
    if bool_decide (cmd ∈ failing) then inl (command_failed cmd) else inr stdout;
  llm := fun _ _ => inr {| content := blocks |};
  http := fun _ _ _ => inr resp |}.

Definition created (n : jsstring) : http_response :=
  {| status := 201; resp_text := inr []; resp_json := inr (JValue n) |}.

Definition rejected (code : N) (text : jsstring) : http_response :=
  {| status := code; resp_text := inr text; resp_json := inl (new_Error (js "SyntaxError")) |}.

Definition local_env : gmap string jsstring :=
  {[ "ANTHROPIC_API_KEY" := js "sk-test";
     "PAT_TOKEN" := js "default-token";
     "RAFFI_PAT_TOKEN" := js "alternate-token" ]}.

Definition vercel_env : gmap string jsstring :=
  <[ "VERCEL" := js "1" ]> (<[ "VERCEL_GIT_COMMIT_REF" := js "raffi" ]> local_env).

Definition push_rejected_world : World :=
  sample_world local_env [GIT_PUSH_ORIGIN (js "feature-x")] (js "feature-x") [] (created []).

Definition conflict_world : World :=
  sample_world local_env [GIT_REBASE] (js "feature-x") [] (created []).

(** A rebase that refuses to start leaves nothing to abort: the abort
    command fails as well. *)
Definition refused_rebase_world : World :=
  sample_world local_env [GIT_REBASE; GIT_REBASE_ABORT] (js "feature-x") [] (created []).

Definition stale_lease_world : World :=
  sample_world local_env [GIT_FORCE_PUSH] (js "feature-x") [] (created []).

(** With no rebase in progress git refuses to abort one. *)
Definition nothing_to_abort_world : World :=
  sample_world local_env [GIT_FORCE_PUSH; GIT_REBASE_ABORT] (js "feature-x") []
    (created []).

Definition answering_world (text : jsstring) : World :=
  sample_world local_env [] (js "diff --git a/a.txt b/a.txt") [TextBlock text] (created (js "7")).

Definition tool_use_world : World :=
  sample_world local_env [] (js "diff --git a/a.txt b/a.txt")
    [ToolUseBlock (js "toolu_01") (js "read_file")] (created (js "7")).

Definition no_key_world : World :=
  sample_world (delete "ANTHROPIC_API_KEY" local_env) [] (js "diff --git a/a.txt b/a.txt")
    [TextBlock (js "Add login flow")] (created (js "7")).

Definition rejecting_world : World :=
  sample_world local_env [] (js "feature-x") [TextBlock (js "Add login flow")]
    (rejected 422 (js "{ message: Validation Failed }")).

(** Every command succeeds and prints [feature-x]. *)
Definition synced_world : World :=
  sample_world local_env [] (js "feature-x") [] (created []).

Definition fetch_failed_world : World :=
  sample_world local_env [GIT_FETCH] (js "feature-x") [] (created []).

(** Outside a repository the branch query fails. *)
Definition no_repo_world : World :=
  sample_world local_env [GIT_BRANCH_QUERY] [] [TextBlock (js "Add login flow")]
    (created (js "7")).

Definition diff_failed_world : World :=
  sample_world local_env [GIT_DIFF] [] [TextBlock (js "Add login flow")] (created (js "7")).

Definition overloaded : js_error := JsError (js "APIError") (js "529 overloaded").

Definition model_down_world : World := {|
  env := local_env;
  sh := fun _ _ => inr (js "diff --git a/a.txt b/a.txt");
  llm := fun _ _ => inl overloaded;
  http := fun _ _ _ => inr (created (js "7")) |}.

Definition empty_answer_world : World :=
  sample_world local_env [] (js "diff --git a/a.txt b/a.txt") [] (created (js "7")).

(** A clean working tree on branch [feature-x]: the status prints nothing. *)
Definition clean_tree_world : World := {|
  env := local_env;
  sh := fun _ cmd =>
    if bool_decide (cmd = GIT_BRANCH_QUERY) then inr (js "feature-x" ++ [10])
    else if bool_decide (cmd = GIT_DIFF) then inr (js "diff --git a/a.txt b/a.txt")
    else inr [];
  llm := fun _ _ => inr {| content := [TextBlock (js "Add login flow")] |};
  http := fun _ _ _ => inr (created (js "7")) |}.

(** The hosting API answers 201 with the body [null]. *)
Definition null_body_world : World :=
  sample_world local_env [] (js "feature-x") [TextBlock (js "Add login flow")]
    {| status := 201; resp_text := inr (js "null"); resp_json := inr JNull |}.

Definition no_token_world : World :=
  sample_world (delete "PAT_TOKEN" local_env) [] (js "feature-x")
    [TextBlock (js "Add login flow")] (created (js "7")).

Definition sample_pull : PullRequestOptions :=
  {| pr_owner := js "modern-realty-inc"; pr_repo := js "plug-chat";
     pr_head := js "feature-x"; pr_base := js "main" |}.

Definition sample_issue : GitHubIssueOptions :=
  {| is_owner := js "modern-realty-inc"; is_repo := js "plug-chat";
     is_title := js "Bug Report"; is_body := js "It fails"; is_labels := None |}.

Definition sample_message : generated_message :=
  {| title := js "Add login flow"; body := js "This PR adds OAuth login." |}.

Example scenario_B :
  result_of (generatePRMessage
               (answering_world (js "Add login flow" ++ NLNL ++ js "This PR adds OAuth login."))
               [])
  = Return {| title := js "Add login flow"; body := js "This PR adds OAuth login." |}.
Proof. vm_compute. reflexivity. Qed.

Example createPRToMain_rethrows :
  result_of (createPRToMain rejecting_world [])
  = Throw (new_Error (js "Failed to create PR: { message: Validation Failed }")).
Proof. vm_compute. reflexivity. Qed.

(** * Properties *)

(** ** Searching, splitting, joining and trimming *)

Section StringFacts.

Implicit Types (sep s pre post : jsstring) (c : N).

Lemma starts_with_spec (p s : jsstring) :
  starts_with p s = true <-> exists post, s = p ++ post.
Proof.
  revert s; induction p as [|a p IH]; intros s; simpl.
  - split; eauto.
  - destruct s as [|b s].
    + split; [discriminate | intros [post H]; discriminate].
    + rewrite andb_true_iff, N.eqb_eq, IH. split.
      * intros [-> [post ->]]. eauto.
      * intros [post H]. injection H as -> ->. eauto.
Qed.

Lemma indexOf_bound (sep s : jsstring) (j : nat) :
  indexOf sep s = Some j -> (j + length sep <= length s)%nat.
Proof.
  revert j; induction s as [|c s IH]; intros j; simpl.
  - destruct sep; simpl; [intros [= <-]; simpl; lia | discriminate].
  - destruct (starts_with sep (c :: s)) eqn:E.
    + intros [= <-]. apply starts_with_spec in E as [post E].
      apply (f_equal (@length N)) in E. rewrite length_app in E.
      simpl in *. lia.
    + destruct (indexOf sep s) as [k|]; simpl; [|discriminate].
      intros [= <-]. specialize (IH k eq_refl). lia.
Qed.

Lemma indexOf_occurs sep s (j : nat) :
  indexOf sep s = Some j -> s = take j s ++ sep ++ drop (j + length sep) s.
Proof.
  revert j; induction s as [|c s IH]; intros j; simpl.
  - destruct sep; simpl; [intros [= <-]; reflexivity | discriminate].
  - destruct (starts_with sep (c :: s)) eqn:E.
    + intros [= <-]. apply starts_with_spec in E as [post E].
      rewrite E at 1. simpl. rewrite E, drop_app_length. reflexivity.
    + destruct (indexOf sep s) as [k|]; simpl; [|discriminate].
      intros [= <-]. simpl. f_equal. apply IH. reflexivity.
Qed.

Lemma indexOf_least sep s (j : nat) pre post :
  indexOf sep s = Some j -> s = pre ++ sep ++ post -> (j <= length pre)%nat.
Proof.
  revert j pre; induction s as [|c s IH]; intros j pre; simpl.
  - destruct sep; simpl; [intros [= <-]; lia | discriminate].
  - destruct (starts_with sep (c :: s)) eqn:E.
    + intros [= <-]; lia.
    + destruct (indexOf sep s) as [k|]; simpl; [|discriminate].
      intros [= <-] Hs. destruct pre as [|p pre]; simpl in *.
      * assert (starts_with sep (c :: s) = true) as E'
          by (apply starts_with_spec; eauto).
        congruence.
      * injection Hs as -> Hs. specialize (IH k pre eq_refl Hs). lia.
Qed.

Lemma indexOf_None sep s :
  indexOf sep s = None -> forall pre post, s <> pre ++ sep ++ post.
Proof.
  induction s as [|c s IH]; simpl.
  - destruct sep; simpl; [discriminate|].
    intros _ [|? ?] post; discriminate.
  - destruct (starts_with sep (c :: s)) eqn:E; [discriminate|].
    destruct (indexOf sep s) as [k|]; simpl; [discriminate|].
    intros _ [|p pre] post Hs; simpl in *.
    + assert (starts_with sep (c :: s) = true) as E'
        by (apply starts_with_spec; eauto).
      congruence.
    + injection Hs as -> Hs. exact (IH eq_refl pre post Hs).
Qed.

Lemma indexOf_first sep s pre post :
  s = pre ++ sep ++ post ->
  (forall pre' post', s = pre' ++ sep ++ post' -> (length pre <= length pre')%nat) ->
  indexOf sep s = Some (length pre).
Proof.
  intros Hs Hmin. destruct (indexOf sep s) as [j|] eqn:E.
  - f_equal. pose proof (indexOf_least _ _ _ _ _ E Hs) as Hle.
    pose proof (indexOf_bound _ _ _ E) as Hb.
    pose proof (Hmin _ _ (indexOf_occurs _ _ _ E)) as Hge.
    rewrite length_take in Hge. lia.
  - destruct (indexOf_None _ _ E _ _ Hs).
Qed.

Lemma split_loop_unfold c sep s :
  split_loop c sep s =
  match indexOf (c :: sep) s with
  | None => [s]
  | Some j => take j s :: split_loop c sep (drop (j + length (c :: sep)) s)
  end.
Proof.
  funelim (split_loop c sep s);
    match goal with H : indexOf _ _ = _ |- _ => rewrite H end; reflexivity.
Qed.

Lemma split_loop_nonempty c sep s : split_loop c sep s <> [].
Proof. rewrite split_loop_unfold. destruct (indexOf _ _); discriminate. Qed.

Lemma join_cons sep (p : jsstring) (rest : list jsstring) :
  rest <> [] -> join sep (p :: rest) = p ++ sep ++ join sep rest.
Proof. destruct rest; [congruence | reflexivity]. Qed.

(** Splitting on a non-empty separator loses nothing: joining the pieces
    with the separator gives the string back. *)
Lemma join_split c sep s : join (c :: sep) (split (c :: sep) s) = s.
Proof.
  unfold split. funelim (split_loop c sep s); [|reflexivity].
  rewrite join_cons by apply split_loop_nonempty.
  match goal with IH : join _ _ = _ |- _ => rewrite IH end.
  symmetry. apply indexOf_occurs. assumption.
Qed.

Lemma split_no_occurrence c sep s :
  (forall pre post, s <> pre ++ (c :: sep) ++ post) -> split (c :: sep) s = [s].
Proof.
  intros Hno. unfold split. rewrite split_loop_unfold.
  destruct (indexOf (c :: sep) s) as [j|] eqn:E; [|reflexivity].
  destruct (Hno _ _ (indexOf_occurs _ _ _ E)).
Qed.

Lemma split_first_occurrence c sep s pre post :
  s = pre ++ (c :: sep) ++ post ->
  (forall pre' post', s = pre' ++ (c :: sep) ++ post' -> (length pre <= length pre')%nat) ->
  split (c :: sep) s = pre :: split (c :: sep) post.
Proof.
  intros Hs Hmin. unfold split. rewrite split_loop_unfold.
  rewrite (indexOf_first _ _ _ _ Hs Hmin). subst s.
  rewrite take_app_length. f_equal. f_equal.
  rewrite <- drop_drop, drop_app_length.
  exact (drop_app_length (c :: sep) post).
Qed.

Lemma trimStart_nil s :
  trimStart s = [] <-> forall c, In c s -> is_white_space c = true.
Proof.
  induction s as [|c s IH]; simpl.
  - split; [intros _ ? [] | reflexivity].
  - destruct (is_white_space c) eqn:E.
    + rewrite IH. split.
      * intros H x [<-|Hx]; auto.
      * intros H x Hx. apply H. auto.
    + split; [discriminate|]. intros H. specialize (H c (or_introl eq_refl)). congruence.
Qed.

Lemma trimStart_head s c (t : jsstring) :
  trimStart s = c :: t -> is_white_space c = false.
Proof.
  induction s as [|x s IH]; simpl; [discriminate|].
  destruct (is_white_space x) eqn:E; [exact IH|]. intros [= <- _]. exact E.
Qed.

(** [trim] yields the empty string exactly on all-whitespace input. *)
Lemma trim_nil s :
  trim s = [] <-> forall c, In c s -> is_white_space c = true.
Proof.
  unfold trim, trimEnd. split.
  - intros H. apply trimStart_nil.
    apply (f_equal (@rev N)) in H. rewrite rev_involutive in H. simpl in H.
    rewrite trimStart_nil in H.
    destruct (trimStart s) as [|x t] eqn:E; [reflexivity|].
    pose proof (trimStart_head _ _ _ E) as Hx.
    rewrite (H x) in Hx; [discriminate|].
    apply in_rev. rewrite rev_involutive. left; reflexivity.
  - intros H. apply trimStart_nil in H. rewrite H. reflexivity.
Qed.

Lemma trim_nonempty s :
  trim s <> [] <-> exists c, In c s /\ is_white_space c = false.
Proof.
  rewrite trim_nil. split.
  - intros Hn. induction s as [|x s IH].
    + destruct Hn. intros c [].
    + destruct (is_white_space x) eqn:E.
      * destruct IH as (c & Hc & Hw).
        { intros Hall. apply Hn. intros c [<-|Hc]; auto. }
        exists c. split; [right|]; assumption.
      * exists x. split; [left; reflexivity | assumption].
  - intros (c & Hc & Hw) Hall. rewrite (Hall c Hc) in Hw. discriminate.
Qed.

(** Every text has a first paragraph. *)
Lemma first_paragraph_exists s : exists para, first_paragraph s para.
Proof.
  destruct (indexOf NLNL s) as [j|] eqn:E.
  - exists (take j s). left. exists (drop (j + length NLNL) s). split.
    + apply indexOf_occurs. assumption.
    + intros pre' post' Hs. rewrite length_take.
      pose proof (indexOf_least _ _ _ _ _ E Hs). lia.
  - exists s. right. split; [|reflexivity].
    exact (indexOf_None _ _ E).
Qed.

End StringFacts.

(** ** Running the script symbolically *)

(** Literals stay folded while a run is unfolded. *)
Opaque js.

Ltac unfold_M :=
  unfold mbind, M_bind, mret, M_ret, try_catch, throw, execSync, process_env,
    await, fetch, messages_create, result_of, calls_of in *.

(** Case analysis on the next answer of the world. *)
Ltac world_step :=
  match goal with
  | |- context [sh ?w ?h ?c] => destruct (sh w h c) eqn:?
  | |- context [llm ?w ?h ?r] => destruct (llm w h r) eqn:?
  | |- context [http ?w ?h ?u ?r] => destruct (http w h u r) eqn:?
  end; simpl.

(** Two command lines that differ in their literal part. *)
Ltac js_discriminate :=
  match goal with
  | H : @eq event _ _ |- _ => exfalso; congruence
  | H : EvExec ?c _ = EvExec ?c' _ |- _ =>
      let E := fresh in
      assert (c = c') as E by congruence; vm_compute in E; discriminate E
  | H : @eq (list N) _ _ |- _ => vm_compute in H; discriminate H
  end.

Section Branch.

Variables (w : World) (h : list event).

Lemma getCurrentBranch_vercel :
  truthy (env w !! "VERCEL") = true ->
  getCurrentBranch w h =
  (if truthy (env w !! "VERCEL_GIT_COMMIT_REF")
   then Return (default [] (env w !! "VERCEL_GIT_COMMIT_REF"))
   else Throw (new_Error (js "Unable to determine branch name in Vercel environment")),
   []).
Proof.
  intros Hv. unfold getCurrentBranch. unfold_M. simpl. rewrite Hv.
  destruct (truthy (env w !! "VERCEL_GIT_COMMIT_REF")); reflexivity.
Qed.

Lemma getCurrentBranch_git :
  truthy (env w !! "VERCEL") = false ->
  getCurrentBranch w h =
  (match sh w h GIT_BRANCH_QUERY with
   | inr out => Return (trim out)
   | inl _ => Throw (new_Error (js "Unable to determine branch name"))
   end,
   [EvExec GIT_BRANCH_QUERY (sh w h GIT_BRANCH_QUERY)]).
Proof.
  intros Hv. unfold getCurrentBranch, GIT_BRANCH_QUERY. unfold_M. simpl.
  rewrite Hv, app_nil_r. world_step; reflexivity.
Qed.

(** The branch query is the only call [getCurrentBranch] can issue. *)
Lemma getCurrentBranch_calls (ev : event) :
  In ev (snd (getCurrentBranch w h)) -> exists r, ev = EvExec GIT_BRANCH_QUERY r.
Proof.
  destruct (truthy (env w !! "VERCEL")) eqn:Hv.
  - rewrite getCurrentBranch_vercel by assumption. intros [].
  - rewrite getCurrentBranch_git by assumption. intros [<-|[]]. eauto.
Qed.

End Branch.

(** C7. [getCurrentBranch] follows the deployment policy.  When the
    deployment marker [VERCEL] is present (set to a non-empty value, which is
    what the script tests), no command is issued, the outcome is the same in
    every world with this environment whatever its repository answers, the
    value of [VERCEL_GIT_COMMIT_REF] is returned, and the call fails when
    that value is absent (or empty).  When the marker is absent, the branch
    query is the one command issued, its trimmed output is returned, and the
    call fails when the command fails. *)
Theorem getCurrentBranch_policy (w : World) (h : list event) :
  (truthy (env w !! "VERCEL") = true ->
     calls_of (getCurrentBranch w h) = [] /\
     (forall w' h', env w' = env w -> getCurrentBranch w' h' = getCurrentBranch w h) /\
     (forall b, env w !! "VERCEL_GIT_COMMIT_REF" = Some b -> b <> [] ->
        result_of (getCurrentBranch w h) = Return b) /\
     (env w !! "VERCEL_GIT_COMMIT_REF" = None \/ env w !! "VERCEL_GIT_COMMIT_REF" = Some [] ->
        result_of (getCurrentBranch w h) =
        Throw (new_Error (js "Unable to determine branch name in Vercel environment"))))
  /\
  (truthy (env w !! "VERCEL") = false ->
     calls_of (getCurrentBranch w h) = [EvExec GIT_BRANCH_QUERY (sh w h GIT_BRANCH_QUERY)] /\
     (forall out, sh w h GIT_BRANCH_QUERY = inr out ->
        result_of (getCurrentBranch w h) = Return (trim out)) /\
     (forall e, sh w h GIT_BRANCH_QUERY = inl e ->
        result_of (getCurrentBranch w h) =
        Throw (new_Error (js "Unable to determine branch name")))).
Proof.
  split; intros Hv.
  - rewrite getCurrentBranch_vercel by assumption. unfold calls_of, result_of; simpl.
    split; [reflexivity|]. split; [|split].
    + intros w' h' He. rewrite getCurrentBranch_vercel by (rewrite He; assumption).
      rewrite He. reflexivity.
    + intros b -> Hb. destruct b; [congruence | reflexivity].
    + intros [-> | ->]; reflexivity.
  - rewrite getCurrentBranch_git by assumption. unfold calls_of, result_of; simpl.
    split; [reflexivity|]. split.
    + intros out ->. reflexivity.
    + intros e ->. reflexivity.
Qed.

Lemma getCurrentBranch_policy_witness :
  result_of (getCurrentBranch
               (sample_world vercel_env [GIT_BRANCH_QUERY] [] [] (created [])) [])
  = Return (js "raffi")
  /\
  result_of (getCurrentBranch
               (sample_world local_env [] (js "feature-x" ++ [10]) [] (created [])) [])
  = Return (js "feature-x").
Proof.
  split.
  - destruct (getCurrentBranch_policy
                (sample_world vercel_env [GIT_BRANCH_QUERY] [] [] (created [])) [])
      as [Hv _].
    destruct (Hv ltac:(vm_compute; reflexivity)) as (_ & _ & Hb & _).
    apply Hb; [vm_compute; reflexivity | discriminate].
  - destruct (getCurrentBranch_policy
                (sample_world local_env [] (js "feature-x" ++ [10]) [] (created [])) [])
      as [_ Hg].
    destruct (Hg ltac:(vm_compute; reflexivity)) as (_ & Hout & _).
    apply (Hout (js "feature-x" ++ [10])). vm_compute; reflexivity.
Defined.

(** ** Synchronising with main *)

Section Sync.

Variables (w : World) (h : list event).

(** Every run of [syncWithMain] has one of the six shapes of [sync_run]. *)
Lemma syncWithMain_run :
  sync_run (calls_of (getCurrentBranch w h)) (syncWithMain w h).
Proof.
  unfold syncWithMain. unfold_M. simpl.
  destruct (getCurrentBranch w h) as [[b|e] t]; simpl; [|constructor].
  repeat (world_step; rewrite ?app_nil_r);
    first [ apply (SyncDone t b)
          | apply (SyncForcePushFailed t b _ _ _ _ (inr _))
          | apply (SyncForcePushFailed t b _ _ _ _ (inl _))
          | apply (SyncRebaseFailed t b _ _ _ (inr _))
          | apply (SyncRebaseFailed t b _ _ _ (inl _))
          | apply (SyncFetchFailed t b)
          | apply (SyncPushFailed t b) ].
Qed.

End Sync.

(** Membership of a call in a trace [t ++ [...]] whose front [t] holds
    branch queries only: every candidate with another command line is
    ruled out. *)
Ltac in_trace H T :=
  apply in_app_or in H; destruct H as [H|H];
  [ apply T in H; destruct H as [? H]; js_discriminate
  | simpl in H;
    repeat (destruct H as [H|H]; [try solve [js_discriminate]|]);
    try contradiction ].

Ltac sync_cases w h R T t :=
  pose proof (syncWithMain_run w h) as R;
  pose proof (getCurrentBranch_calls w h) as T;
  unfold calls_of, result_of in *;
  set (t := snd (getCurrentBranch w h)) in *; clearbody t;
  destruct R.

(** C3. When the initial push of the current branch fails, [syncWithMain]
    raises the sync error built from that failure, the failed push is the
    last call of the run, and neither the fetch nor the rebase is issued. *)
Theorem push_failure_fails_fast (w : World) (h : list event) (b : jsstring) (e : js_error) :
  In (EvExec (GIT_PUSH_ORIGIN b) (inl e)) (calls_of (syncWithMain w h)) ->
  result_of (syncWithMain w h) = Throw (SYNC_ERROR e) /\
  calls_of (syncWithMain w h) =
    calls_of (getCurrentBranch w h) ++ [EvExec (GIT_PUSH_ORIGIN b) (inl e)] /\
  (forall r, ~ In (EvExec GIT_FETCH r) (calls_of (syncWithMain w h))) /\
  (forall r, ~ In (EvExec GIT_REBASE r) (calls_of (syncWithMain w h))).
Proof.
  intros Hin. sync_cases w h R T t; simpl in *;
    [ apply T in Hin; destruct Hin as [? Hin]; js_discriminate
    | in_trace Hin T .. ].
  assert (GIT_PUSH_ORIGIN b0 = GIT_PUSH_ORIGIN b) as Hb by congruence.
  assert (e0 = e) as -> by congruence.
  apply app_inv_head in Hb. subst b0.
  repeat split; intros r Hr; in_trace Hr T.
Qed.

Lemma push_failure_fails_fast_witness :
  result_of (syncWithMain push_rejected_world []) =
  Throw (SYNC_ERROR (command_failed (GIT_PUSH_ORIGIN (js "feature-x")))).
Proof.
  apply (push_failure_fails_fast push_rejected_world [] (js "feature-x")).
  vm_compute. right. left. reflexivity.
Defined.

(** C2, as amended.  When the rebase onto origin/main fails, the abort
    command is issued right after it and is the last call of the run, so it
    precedes whatever error reaches the caller; the force-push-with-lease is
    never issued; the run fails, with the conflict error when the abort
    command succeeds and with the abort command's own error when it fails. *)
Theorem rebase_failure_aborts (w : World) (h : list event) (e : js_error) :
  In (EvExec GIT_REBASE (inl e)) (calls_of (syncWithMain w h)) ->
  exists pre abort,
    calls_of (syncWithMain w h) =
      pre ++ [EvExec GIT_REBASE (inl e); EvExec GIT_REBASE_ABORT abort] /\
    (forall r, ~ In (EvExec GIT_FORCE_PUSH r) (calls_of (syncWithMain w h))) /\
    match abort with
    | inr _ => result_of (syncWithMain w h) = Throw CONFLICT_ERROR
    | inl e' => result_of (syncWithMain w h) = Throw e'
    end.
Proof.
  intros Hin. sync_cases w h R T t; simpl in *;
    [ apply T in Hin; destruct Hin as [? Hin]; js_discriminate
    | in_trace Hin T .. ].
  assert (e0 = e) as -> by congruence.
  exists (t ++ [EvExec (GIT_PUSH_ORIGIN b) (inr o1); EvExec GIT_FETCH (inr o2)]), a.
  split; [rewrite <- app_assoc; reflexivity|]. split.
  - intros r Hr. in_trace Hr T.
  - destruct a; reflexivity.
Qed.

Lemma rebase_failure_aborts_witness :
  exists pre abort,
    calls_of (syncWithMain conflict_world []) =
      pre ++ [EvExec GIT_REBASE (inl (command_failed GIT_REBASE));
              EvExec GIT_REBASE_ABORT abort].
Proof.
  destruct (rebase_failure_aborts conflict_world [] (command_failed GIT_REBASE))
    as (pre & abort & Hcalls & _).
  - vm_compute. do 3 right. left. reflexivity.
  - exists pre, abort. exact Hcalls.
Defined.

(** C2 as stated fails: the rebase fails, yet the error that reaches the
    caller is the abort command's, not the conflict error. *)
Lemma rebase_failure_conflict_error_counterexample :
  In (EvExec GIT_REBASE (inl (command_failed GIT_REBASE)))
     (calls_of (syncWithMain refused_rebase_world [])) /\
  result_of (syncWithMain refused_rebase_world []) =
    Throw (command_failed GIT_REBASE_ABORT) /\
  result_of (syncWithMain refused_rebase_world []) <> Throw CONFLICT_ERROR.
Proof.
  split; [vm_compute; do 3 right; left; reflexivity|].
  split; [vm_compute; reflexivity|].
  vm_compute. discriminate.
Qed.

(** C9, as amended.  When the rebase succeeds and the force-push-with-lease
    after it fails, the abort command is still issued, as the last call of
    the run; the run fails with the conflict error when the abort command
    succeeds and with the abort command's own error when it fails; and a run
    whose rebase failed is reported the same way whenever its abort command
    was answered alike. *)
Theorem force_push_failure_reported_as_conflict
    (w : World) (h : list event) (e : js_error) :
  In (EvExec GIT_FORCE_PUSH (inl e)) (calls_of (syncWithMain w h)) ->
  exists pre out abort,
    calls_of (syncWithMain w h) =
      pre ++ [EvExec GIT_REBASE (inr out); EvExec GIT_FORCE_PUSH (inl e);
              EvExec GIT_REBASE_ABORT abort] /\
    match abort with
    | inr _ => result_of (syncWithMain w h) = Throw CONFLICT_ERROR
    | inl e' => result_of (syncWithMain w h) = Throw e'
    end /\
    (forall w' h' e',
       In (EvExec GIT_REBASE (inl e')) (calls_of (syncWithMain w' h')) ->
       In (EvExec GIT_REBASE_ABORT abort) (calls_of (syncWithMain w' h')) ->
       result_of (syncWithMain w' h') = result_of (syncWithMain w h)).
Proof.
  intros Hin. sync_cases w h R T t; simpl in *;
    [ apply T in Hin; destruct Hin as [? Hin]; js_discriminate
    | in_trace Hin T .. ].
  assert (e0 = e) as -> by congruence.
  exists (t ++ [EvExec (GIT_PUSH_ORIGIN b) (inr o1); EvExec GIT_FETCH (inr o2)]), o3, a.
  split; [rewrite <- app_assoc; reflexivity|]. split.
  - destruct a; reflexivity.
  - clear T Hin. intros w' h' e' Hreb Hab.
    sync_cases w' h' R' T' t'; simpl in *;
      [ apply T' in Hreb; destruct Hreb as [? Hreb]; js_discriminate
      | in_trace Hreb T' .. ].
    in_trace Hab T'. assert (a0 = a) as -> by congruence. reflexivity.
Qed.

Lemma force_push_failure_reported_as_conflict_witness :
  exists pre out abort,
    calls_of (syncWithMain stale_lease_world []) =
      pre ++ [EvExec GIT_REBASE (inr out);
              EvExec GIT_FORCE_PUSH (inl (command_failed GIT_FORCE_PUSH));
              EvExec GIT_REBASE_ABORT abort].
Proof.
  destruct (force_push_failure_reported_as_conflict stale_lease_world []
              (command_failed GIT_FORCE_PUSH))
    as (pre & out & abort & Hcalls & _).
  - vm_compute. do 4 right. left. reflexivity.
  - exists pre, out, abort. exact Hcalls.
Defined.

(** C9 as stated fails: the rebase succeeds, the force-push fails, the
    abort is issued, and the error raised is the abort command's. *)
Lemma force_push_failure_conflict_error_counterexample :
  In (EvExec GIT_REBASE (inr (js "feature-x")))
     (calls_of (syncWithMain nothing_to_abort_world [])) /\
  In (EvExec GIT_FORCE_PUSH (inl (command_failed GIT_FORCE_PUSH)))
     (calls_of (syncWithMain nothing_to_abort_world [])) /\
  result_of (syncWithMain nothing_to_abort_world []) =
    Throw (command_failed GIT_REBASE_ABORT) /\
  result_of (syncWithMain nothing_to_abort_world []) <> Throw CONFLICT_ERROR.
Proof.
  split; [vm_compute; do 3 right; left; reflexivity|].
  split; [vm_compute; do 4 right; left; reflexivity|].
  split; [vm_compute; reflexivity|].
  vm_compute. discriminate.
Qed.

(** ** Generating the message *)

Section Message.

Variables (w : World) (h : list event).

Lemma generatePRMessage_no_key :
  truthy (env w !! "ANTHROPIC_API_KEY") = false ->
  generatePRMessage w h = (Throw MISSING_KEY_ERROR, []).
Proof.
  intros Hk. unfold generatePRMessage. unfold_M. simpl. rewrite Hk. reflexivity.
Qed.

(** Once the model has answered, the outcome is read off its message. *)
Lemma generatePRMessage_answered (msg : llm_message) :
  In msg (answers (calls_of (generatePRMessage w h))) ->
  result_of (generatePRMessage w h) =
  match content msg with
  | [] => Throw (new_TypeError (js "Cannot read properties of undefined (reading 'type')"))
  | block :: _ =>
      let responseText :=
        match block with
        | TextBlock text => text
        | ToolUseBlock _ _ => []
        end in
      match split NLNL responseText with
      | [] => Throw (new_TypeError (js "Cannot read properties of undefined (reading 'trim')"))
      | title :: bodyParts =>
          Return {| title := trim title; body := trim (join NLNL bodyParts) |}
      end
  end.
Proof.
  unfold generatePRMessage. unfold_M. simpl.
  destruct (truthy (env w !! "ANTHROPIC_API_KEY")); simpl; [|intros []].
  world_step; [intros []|].
  world_step; [intros []|].
  match goal with |- context [content ?m] => rename m into answer end.
  destruct (content answer) as [|[text|id name] rest] eqn:Hc; simpl;
    try (destruct (split_loop 10 [10] _) eqn:Hs; simpl);
    intros Hin;
    (assert (msg = answer) as -> by (destruct Hin as [H|[]]; congruence));
    rewrite Hc; simpl; try rewrite Hs; reflexivity.
Qed.

Lemma generatePRMessage_first_boundary (msg : llm_message) (text pre post : jsstring)
    (rest : list content_block) :
  In msg (answers (calls_of (generatePRMessage w h))) ->
  content msg = TextBlock text :: rest ->
  first_boundary text pre post ->
  result_of (generatePRMessage w h) =
  Return {| title := trim pre; body := trim post |}.
Proof.
  intros Hin Hc [Hs Hmin].
  rewrite (generatePRMessage_answered msg Hin), Hc. simpl.
  change (split_loop 10 [10] text) with (split NLNL text).
  unfold NLNL in *. rewrite (split_first_occurrence _ _ _ _ _ Hs Hmin).
  rewrite join_split. reflexivity.
Qed.

Lemma generatePRMessage_no_boundary (msg : llm_message) (text : jsstring)
    (rest : list content_block) :
  In msg (answers (calls_of (generatePRMessage w h))) ->
  content msg = TextBlock text :: rest ->
  no_boundary text ->
  result_of (generatePRMessage w h) =
  Return {| title := trim text; body := [] |}.
Proof.
  intros Hin Hc Hno.
  rewrite (generatePRMessage_answered msg Hin), Hc. simpl.
  change (split_loop 10 [10] text) with (split NLNL text).
  unfold NLNL in *. rewrite (split_no_occurrence _ _ _ Hno). reflexivity.
Qed.

End Message.

(** C1. The message is cut at the first blank line of the response text:
    the title is what precedes it, trimmed, and the body is what follows
    it, trimmed (splitting the rest and joining it again restores it).  A
    text without a blank line yields the whole text, trimmed, as title and
    the empty body, as a normal result. *)
Theorem parsing_rule (w : World) (h : list event) (msg : llm_message)
    (text : jsstring) (rest : list content_block) :
  In msg (answers (calls_of (generatePRMessage w h))) ->
  content msg = TextBlock text :: rest ->
  (forall pre post, first_boundary text pre post ->
     result_of (generatePRMessage w h) =
     Return {| title := trim pre; body := trim post |}) /\
  (no_boundary text ->
     result_of (generatePRMessage w h) =
     Return {| title := trim text; body := [] |}).
Proof.
  intros Hin Hc. split.
  - intros pre post Hb. exact (generatePRMessage_first_boundary w h msg text pre post rest Hin Hc Hb).
  - intros Hno. exact (generatePRMessage_no_boundary w h msg text rest Hin Hc Hno).
Qed.

Lemma parsing_rule_witness :
  result_of (generatePRMessage
               (answering_world (js "Add login flow" ++ NLNL ++ js "This PR adds OAuth login."))
               [])
  = Return {| title := trim (js "Add login flow");
              body := trim (js "This PR adds OAuth login.") |}
  /\
  result_of (generatePRMessage (answering_world (js "Add login flow")) [])
  = Return {| title := trim (js "Add login flow"); body := [] |}.
Proof.
  split.
  - refine (proj1 (parsing_rule
                     (answering_world
                        (js "Add login flow" ++ NLNL ++ js "This PR adds OAuth login."))
                     [] {| content := _ |} _ [] _ eq_refl) _ _ _).
    + vm_compute. left. reflexivity.
    + split; [reflexivity|].
      intros pre' post' Hs. eapply indexOf_least; [|exact Hs].
      vm_compute. reflexivity.
  - refine (proj2 (parsing_rule (answering_world (js "Add login flow"))
                     [] {| content := _ |} _ [] _ eq_refl) _).
    + vm_compute. left. reflexivity.
    + unfold no_boundary. apply (indexOf_None NLNL). vm_compute. reflexivity.
Defined.

(** C4, as amended.  The title is the first paragraph of the response text,
    trimmed; it is non-empty exactly when that paragraph holds a code unit
    that is not white space, and the empty string otherwise. *)
Theorem title_nonempty_iff (w : World) (h : list event) (msg : llm_message)
    (text : jsstring) (rest : list content_block) :
  In msg (answers (calls_of (generatePRMessage w h))) ->
  content msg = TextBlock text :: rest ->
  exists para m,
    first_paragraph text para /\
    result_of (generatePRMessage w h) = Return m /\
    title m = trim para /\
    (title m <> [] <-> exists c, In c para /\ is_white_space c = false).
Proof.
  intros Hin Hc. destruct (first_paragraph_exists text) as [para Hp].
  exists para. destruct Hp as [[post Hb]|[Hno ->]].
  - exists {| title := trim para; body := trim post |}.
    split; [left; exists post; assumption|]. split.
    + exact (generatePRMessage_first_boundary w h msg text para post rest Hin Hc Hb).
    + split; [reflexivity | apply trim_nonempty].
  - exists {| title := trim text; body := [] |}.
    split; [right; split; [assumption | reflexivity]|]. split.
    + exact (generatePRMessage_no_boundary w h msg text rest Hin Hc Hno).
    + split; [reflexivity | apply trim_nonempty].
Qed.

Lemma title_nonempty_iff_witness :
  exists para m,
    first_paragraph (js "Add login flow") para /\
    result_of (generatePRMessage (answering_world (js "Add login flow")) []) = Return m /\
    title m = trim para /\
    (title m <> [] <-> exists c, In c para /\ is_white_space c = false).
Proof.
  apply (title_nonempty_iff (answering_world (js "Add login flow")) []
           {| content := [TextBlock (js "Add login flow")] |} _ []).
  - vm_compute. left. reflexivity.
  - reflexivity.
Defined.

(** C4 as stated fails: a response that opens with a blank line is parsed
    into a message whose title is the empty string. *)
Lemma title_nonempty_counterexample :
  In {| content := [TextBlock (NLNL ++ js "Fix the login bug")] |}
     (answers (calls_of (generatePRMessage
                           (answering_world (NLNL ++ js "Fix the login bug")) []))) /\
  result_of (generatePRMessage (answering_world (NLNL ++ js "Fix the login bug")) [])
  = Return {| title := []; body := js "Fix the login bug" |}.
Proof.
  split; [vm_compute; left; reflexivity|]. vm_compute. reflexivity.
Qed.

(** C5, as amended.  A first content block that is not a text block makes
    the response text the empty string: the summarizer returns the message
    with empty title and empty body and raises nothing.  A missing (or
    empty) API credential raises the configuration error before any call,
    to git or to the network, is issued. *)
Theorem non_text_answer_and_missing_key (w : World) (h : list event) :
  (forall msg id name rest,
     In msg (answers (calls_of (generatePRMessage w h))) ->
     content msg = ToolUseBlock id name :: rest ->
     result_of (generatePRMessage w h) = Return {| title := []; body := [] |})
  /\
  (truthy (env w !! "ANTHROPIC_API_KEY") = false ->
     result_of (generatePRMessage w h) = Throw MISSING_KEY_ERROR /\
     calls_of (generatePRMessage w h) = []).
Proof.
  split.
  - intros msg id name rest Hin Hc.
    rewrite (generatePRMessage_answered w h msg Hin), Hc. simpl.
    change (split_loop 10 [10] []) with (split NLNL []).
    unfold NLNL. rewrite split_no_occurrence; [reflexivity|].
    intros [|? ?] post; discriminate.
  - intros Hk. rewrite (generatePRMessage_no_key w h Hk). split; reflexivity.
Qed.

Lemma non_text_answer_and_missing_key_witness :
  result_of (generatePRMessage tool_use_world []) = Return {| title := []; body := [] |}
  /\
  (result_of (generatePRMessage no_key_world []) = Throw MISSING_KEY_ERROR /\
   calls_of (generatePRMessage no_key_world []) = []).
Proof.
  split.
  - apply (proj1 (non_text_answer_and_missing_key tool_use_world [])
             {| content := [ToolUseBlock (js "toolu_01") (js "read_file")] |}
             (js "toolu_01") (js "read_file") []).
    + vm_compute. left. reflexivity.
    + reflexivity.
  - apply (proj2 (non_text_answer_and_missing_key no_key_world [])).
    vm_compute. reflexivity.
Defined.

(** C5 as stated fails: the model answers with a tool-use block and the
    summarizer returns a message instead of raising an error. *)
Lemma non_text_answer_counterexample :
  In {| content := [ToolUseBlock (js "toolu_01") (js "read_file")] |}
     (answers (calls_of (generatePRMessage tool_use_world []))) /\
  result_of (generatePRMessage tool_use_world []) = Return {| title := []; body := [] |} /\
  forall e, result_of (generatePRMessage tool_use_world []) <> Throw e.
Proof.
  split; [vm_compute; left; reflexivity|].
  split; [vm_compute; reflexivity|].
  intros e. vm_compute. discriminate.
Qed.

(** ** Talking to the hosting API *)

Section Hosting.

Variables (w : World) (h : list event).

Lemma authorization_of_fetch (url accept value ctype : jsstring) (p : payload)
    (r : js_error + http_response) :
  authorization_of
    (EvFetch url
       {| req_method := js "POST";
          req_headers := [ (js "Accept", accept);
                           (js "Authorization", value);
                           (js "Content-Type", ctype) ];
          req_body := p |} r) = [value].
Proof. vm_compute. reflexivity. Qed.

Lemma authorizations_app (t t' : list event) :
  authorizations (t ++ t') = authorizations t ++ authorizations t'.
Proof. apply flat_map_app. Qed.

Lemma authorizations_singleton (ev : event) :
  authorizations [ev] = authorization_of ev.
Proof. unfold authorizations. simpl. apply app_nil_r. Qed.

Lemma authorizations_branch_calls :
  authorizations (calls_of (getCurrentBranch w h)) = [].
Proof.
  pose proof (getCurrentBranch_calls w h) as T. unfold calls_of.
  induction (snd (getCurrentBranch w h)) as [|ev t IH]; [reflexivity|].
  unfold authorizations in *. simpl.
  destruct (T ev (or_introl eq_refl)) as [r ->]. simpl.
  apply IH. intros ev' Hev'. apply T. right. assumption.
Qed.

(** Case analysis on the answer of the hosting API. *)
Ltac response_cases :=
  let resp := fresh "resp" in
  match goal with
  | |- context [http ?w ?hh ?u ?r] => destruct (http w hh u r) as [?|resp]; simpl
  end;
  [ | destruct (response_ok resp); simpl;
      [ destruct (resp_json resp) as [?|[|?]]; simpl
      | destruct (resp_text resp) as [?|?]; simpl ] ].

Ltac sent_authorization Ht :=
  rewrite ?app_nil_r, authorizations_app, Ht, authorizations_singleton;
  apply authorization_of_fetch.

Lemma createPR_authorizations (o : PullRequestOptions) (m : generated_message) :
  authorizations (calls_of (createPR o m w h)) = expected_authorizations w h.
Proof.
  pose proof authorizations_branch_calls as Ht.
  unfold expected_authorizations, createPR, token_for_branch. unfold_M. simpl.
  destruct (getCurrentBranch w h) as [[b|e] t]; simpl in *; [|assumption].
  response_cases; sent_authorization Ht.
Qed.

Lemma createGitHubIssue_authorizations (o : GitHubIssueOptions) :
  authorizations (calls_of (createGitHubIssue o w h)) = expected_authorizations w h.
Proof.
  pose proof authorizations_branch_calls as Ht.
  unfold expected_authorizations, createGitHubIssue, token_for_branch. unfold_M. simpl.
  destruct (getCurrentBranch w h) as [[b|e] t]; simpl in *; [|assumption].
  response_cases; sent_authorization Ht.
Qed.

(** Both operations start by resolving the branch, against the history
    they are called in. *)
Lemma createPR_resolves_branch (o : PullRequestOptions) (m : generated_message) :
  exists sent, calls_of (createPR o m w h) = calls_of (getCurrentBranch w h) ++ sent.
Proof.
  unfold createPR. unfold_M. simpl.
  destruct (getCurrentBranch w h) as [[b|e] t]; simpl;
    [|exists []; symmetry; apply app_nil_r].
  response_cases; eexists; reflexivity.
Qed.

Lemma createGitHubIssue_resolves_branch (o : GitHubIssueOptions) :
  exists sent, calls_of (createGitHubIssue o w h) = calls_of (getCurrentBranch w h) ++ sent.
Proof.
  unfold createGitHubIssue. unfold_M. simpl.
  destruct (getCurrentBranch w h) as [[b|e] t]; simpl;
    [|exists []; symmetry; apply app_nil_r].
  response_cases; eexists; reflexivity.
Qed.

Lemma responses_spec (calls : list event) (resp : http_response) :
  In resp (responses calls) -> exists url req, In (EvFetch url req (inr resp)) calls.
Proof.
  unfold responses. rewrite in_flat_map. intros (ev & Hev & Hr).
  destruct ev as [| |url req [e|resp']]; simpl in Hr; try contradiction.
  destruct Hr as [->|[]]. eauto.
Qed.

Lemma not_2xx_not_ok (resp : http_response) :
  ~ (200 <= status resp <= 299) -> response_ok resp = false.
Proof.
  intros Hs. unfold response_ok. apply andb_false_iff.
  destruct (N.leb_spec 200 (status resp)); [|left; reflexivity].
  destruct (N.leb_spec (status resp) 299); [|right; reflexivity].
  destruct Hs. split; assumption.
Qed.

(** The outcome of [createPR] once the hosting API has answered with a
    status outside 200-299. *)
Lemma createPR_rejected (o : PullRequestOptions) (m : generated_message)
    (url : jsstring) (req : http_request) (resp : http_response) :
  In (EvFetch url req (inr resp)) (calls_of (createPR o m w h)) ->
  response_ok resp = false ->
  result_of (createPR o m w h) =
  match resp_text resp with
  | inr text => Throw (new_Error (js "Failed to create PR: " ++ text))
  | inl e => Throw e
  end.
Proof.
  pose proof (getCurrentBranch_calls w h) as T.
  unfold createPR. unfold_M. simpl.
  destruct (getCurrentBranch w h) as [[b|e] t]; simpl in *.
  - match goal with
    | |- context [http w ?hh ?u ?r] => destruct (http w hh u r) as [?|resp'] eqn:Hr; simpl
    end.
    + intros Hin. in_trace Hin T.
    + intros Hin Hok.
      assert (resp' = resp) as ->.
      { destruct (response_ok resp'); simpl in Hin;
          [ destruct (resp_json resp') as [?|[|?]]; simpl in Hin
          | destruct (resp_text resp') as [?|?]; simpl in Hin ];
          rewrite ?app_nil_r in Hin; in_trace Hin T; congruence. }
      rewrite Hok. simpl. destruct (resp_text resp); reflexivity.
  - intros Hin. apply T in Hin. destruct Hin as [? Hin]. discriminate Hin.
Qed.

Lemma createGitHubIssue_rejected (o : GitHubIssueOptions)
    (url : jsstring) (req : http_request) (resp : http_response) :
  In (EvFetch url req (inr resp)) (calls_of (createGitHubIssue o w h)) ->
  response_ok resp = false ->
  result_of (createGitHubIssue o w h) =
  match resp_text resp with
  | inr text => Throw (new_Error (js "Failed to create issue: " ++ text))
  | inl e => Throw e
  end.
Proof.
  pose proof (getCurrentBranch_calls w h) as T.
  unfold createGitHubIssue. unfold_M. simpl.
  destruct (getCurrentBranch w h) as [[b|e] t]; simpl in *.
  - match goal with
    | |- context [http w ?hh ?u ?r] => destruct (http w hh u r) as [?|resp'] eqn:Hr; simpl
    end.
    + intros Hin. in_trace Hin T.
    + intros Hin Hok.
      assert (resp' = resp) as ->.
      { destruct (response_ok resp'); simpl in Hin;
          [ destruct (resp_json resp') as [?|[|?]]; simpl in Hin
          | destruct (resp_text resp') as [?|?]; simpl in Hin ];
          rewrite ?app_nil_r in Hin; in_trace Hin T; congruence. }
      rewrite Hok. simpl. destruct (resp_text resp); reflexivity.
  - intros Hin. apply T in Hin. destruct Hin as [? Hin]. discriminate Hin.
Qed.

End Hosting.

(** C6. Token selection is a total function of the resolved branch name:
    the name [raffi] selects the alternate credential, every other name
    the default one; and [createPR] and [createGitHubIssue] both send
    exactly the credential this function selects for the branch they
    resolve. *)
Theorem token_selection (w : World) (h : list event) :
  (forall b,
     (b = js "raffi" -> token_for_branch (env w) b = env w !! "RAFFI_PAT_TOKEN") /\
     (b <> js "raffi" -> token_for_branch (env w) b = env w !! "PAT_TOKEN")) /\
  (forall o m,
     authorizations (calls_of (createPR o m w h)) =
     match result_of (getCurrentBranch w h) with
     | Return b => [js "token " ++ render (token_for_branch (env w) b)]
     | Throw _ => []
     end) /\
  (forall o,
     authorizations (calls_of (createGitHubIssue o w h)) =
     match result_of (getCurrentBranch w h) with
     | Return b => [js "token " ++ render (token_for_branch (env w) b)]
     | Throw _ => []
     end).
Proof.
  split; [|split].
  - intros b. unfold token_for_branch. split; intros Hb.
    + rewrite bool_decide_eq_true_2 by assumption. reflexivity.
    + rewrite bool_decide_eq_false_2 by assumption. reflexivity.
  - intros o m. apply createPR_authorizations.
  - intros o. apply createGitHubIssue_authorizations.
Qed.

Lemma token_selection_witness :
  token_for_branch (env rejecting_world) (js "raffi")
  = env rejecting_world !! "RAFFI_PAT_TOKEN" /\
  token_for_branch (env rejecting_world) (js "feature-x")
  = env rejecting_world !! "PAT_TOKEN".
Proof.
  destruct (token_selection rejecting_world []) as [Hsel _].
  split.
  - exact (proj1 (Hsel (js "raffi")) eq_refl).
  - apply (proj2 (Hsel (js "feature-x"))).
    intros H. vm_compute in H. discriminate H.
Defined.

(** C8. When the hosting API answers with a status outside 200-299, both
    [createPR] and [createGitHubIssue] fail and return no resource; the
    message of the error they raise ends with the text of the response
    body, unchanged. *)
Theorem rejected_request_raises_body (w : World) (h : list event)
    (resp : http_response) :
  ~ (200 <= status resp <= 299) ->
  (forall o m,
     In resp (responses (calls_of (createPR o m w h))) ->
     (forall r, result_of (createPR o m w h) <> Return r) /\
     (forall text,
        resp_text resp = inr text ->
        result_of (createPR o m w h) =
        Throw (new_Error (js "Failed to create PR: " ++ text)))) /\
  (forall o,
     In resp (responses (calls_of (createGitHubIssue o w h))) ->
     (forall r, result_of (createGitHubIssue o w h) <> Return r) /\
     (forall text,
        resp_text resp = inr text ->
        result_of (createGitHubIssue o w h) =
        Throw (new_Error (js "Failed to create issue: " ++ text)))).
Proof.
  intros Hs. apply not_2xx_not_ok in Hs. split.
  - intros o m Hin. apply responses_spec in Hin as (url & req & Hin).
    rewrite (createPR_rejected w h o m url req resp Hin Hs). split.
    + intros r. destruct (resp_text resp); discriminate.
    + intros text ->. reflexivity.
  - intros o Hin. apply responses_spec in Hin as (url & req & Hin).
    rewrite (createGitHubIssue_rejected w h o url req resp Hin Hs). split.
    + intros r. destruct (resp_text resp); discriminate.
    + intros text ->. reflexivity.
Qed.

Lemma rejected_request_raises_body_witness :
  result_of (createPR
               {| pr_owner := js "modern-realty-inc"; pr_repo := js "plug-chat";
                  pr_head := js "feature-x"; pr_base := js "main" |}
               {| title := js "Add login flow"; body := [] |}
               rejecting_world [])
  = Throw (new_Error (js "Failed to create PR: " ++ js "{ message: Validation Failed }"))
  /\
  result_of (createGitHubIssue
               {| is_owner := js "modern-realty-inc"; is_repo := js "plug-chat";
                  is_title := js "Bug Report"; is_body := js "It fails";
                  is_labels := Some [js "bug"] |}
               rejecting_world [])
  = Throw (new_Error (js "Failed to create issue: " ++ js "{ message: Validation Failed }")).
Proof.
  destruct (rejected_request_raises_body rejecting_world []
              (rejected 422 (js "{ message: Validation Failed }")))
    as [Hpr Hissue].
  - vm_compute. intros [_ H]. apply H. reflexivity.
  - split.
    + apply Hpr; [vm_compute; left; reflexivity | reflexivity].
    + apply Hissue; [vm_compute; left; reflexivity | reflexivity].
Defined.

(** C10. Both operations resolve the branch themselves, as their first
    step and against the history they are called in; the credential they
    send is the one selected for that branch and does not depend on the
    request, so a pull request whose head names one branch can be sent with
    the credential of another. *)
Theorem token_branch_resolved_at_call (w : World) (h : list event) :
  (forall o m, exists sent,
     calls_of (createPR o m w h) = calls_of (getCurrentBranch w h) ++ sent) /\
  (forall o, exists sent,
     calls_of (createGitHubIssue o w h) = calls_of (getCurrentBranch w h) ++ sent) /\
  (forall o m o' m',
     authorizations (calls_of (createPR o m w h)) = expected_authorizations w h /\
     authorizations (calls_of (createPR o m w h)) =
     authorizations (calls_of (createPR o' m' w h))) /\
  (forall o o',
     authorizations (calls_of (createGitHubIssue o w h)) = expected_authorizations w h /\
     authorizations (calls_of (createGitHubIssue o w h)) =
     authorizations (calls_of (createGitHubIssue o' w h))) /\
  (exists w0 o m,
     pr_head o = js "feature-x" /\
     result_of (getCurrentBranch w0 []) = Return (js "raffi") /\
     authorizations (calls_of (createPR o m w0 [])) = [js "token " ++ js "alternate-token"] /\
     token_for_branch (env w0) (pr_head o) = Some (js "default-token")).
Proof.
  split; [|split; [|split; [|split]]].
  - intros o m. apply createPR_resolves_branch.
  - intros o. apply createGitHubIssue_resolves_branch.
  - intros o m o' m'. rewrite !createPR_authorizations. split; reflexivity.
  - intros o o'. rewrite !createGitHubIssue_authorizations. split; reflexivity.
  - exists (sample_world vercel_env [] [] [] (created (js "7"))),
      {| pr_owner := js "modern-realty-inc"; pr_repo := js "plug-chat";
         pr_head := js "feature-x"; pr_base := js "main" |},
      {| title := js "Add login flow"; body := [] |}.
    repeat split; vm_compute; reflexivity.
Qed.

(** * Further properties of the script *)

(** ** Trimmed strings and the pieces of a split *)

Section TrimFacts.

Implicit Types (s a b : jsstring).

Lemma trimStart_starts_clean s : starts_clean (trimStart s).
Proof.
  destruct (trimStart s) as [|c t] eqn:E; simpl; [exact I|].
  exact (trimStart_head _ _ _ E).
Qed.

Lemma trimStart_id s : starts_clean s -> trimStart s = s.
Proof. destruct s as [|c t]; simpl; [reflexivity|]. intros ->. reflexivity. Qed.

Lemma trimStart_suffix s : exists a, s = a ++ trimStart s.
Proof.
  induction s as [|c s [a IH]]; simpl; [exists []; reflexivity|].
  destruct (is_white_space c).
  - exists (c :: a). simpl. f_equal. exact IH.
  - exists []. reflexivity.
Qed.

Lemma trimEnd_prefix s : exists b, s = trimEnd s ++ b.
Proof.
  destruct (trimStart_suffix (rev s)) as [a Ha]. exists (rev a). unfold trimEnd.
  rewrite <- rev_app_distr, <- Ha, rev_involutive. reflexivity.
Qed.

Lemma trimEnd_id s : starts_clean (rev s) -> trimEnd s = s.
Proof.
  intros H. unfold trimEnd. rewrite (trimStart_id _ H). apply rev_involutive.
Qed.

Lemma trimEnd_ends_clean s : starts_clean (rev (trimEnd s)).
Proof. unfold trimEnd. rewrite rev_involutive. apply trimStart_starts_clean. Qed.

Lemma trimEnd_starts_clean s : starts_clean s -> starts_clean (trimEnd s).
Proof.
  intros H. destruct (trimEnd_prefix s) as [b Hb].
  destruct (trimEnd s) as [|c t]; simpl; [exact I|].
  rewrite Hb in H. exact H.
Qed.

Lemma trim_starts_clean s : starts_clean (trim s).
Proof. apply trimEnd_starts_clean, trimStart_starts_clean. Qed.

Lemma trim_ends_clean s : starts_clean (rev (trim s)).
Proof. apply trimEnd_ends_clean. Qed.

Lemma trim_id s : starts_clean s -> starts_clean (rev s) -> trim s = s.
Proof.
  intros H1 H2. unfold trim. rewrite (trimStart_id _ H1). exact (trimEnd_id _ H2).
Qed.

(** Trimming twice is trimming once. *)
Lemma trim_trim s : trim (trim s) = trim s.
Proof. apply trim_id; [apply trim_starts_clean | apply trim_ends_clean]. Qed.

Lemma trim_fixed_ends_clean s : trim s = s -> starts_clean (rev s).
Proof. intros H. rewrite <- H. apply trim_ends_clean. Qed.

Lemma trim_infix s : exists a b, s = a ++ trim s ++ b.
Proof.
  destruct (trimStart_suffix s) as [a Ha].
  destruct (trimEnd_prefix (trimStart s)) as [b Hb].
  exists a, b. unfold trim. rewrite <- Hb. exact Ha.
Qed.

Lemma no_boundary_infix a s b : no_boundary (a ++ s ++ b) -> no_boundary s.
Proof.
  intros H pre post ->. apply (H (a ++ pre) (post ++ b)).
  rewrite <- !app_assoc. reflexivity.
Qed.

(** The first piece of a split holds no separator. *)
Lemma split_head_no_occurrence (c : N) (sep s p : jsstring) (rest : list jsstring) :
  split (c :: sep) s = p :: rest ->
  forall pre post, p <> pre ++ (c :: sep) ++ post.
Proof.
  unfold split. rewrite split_loop_unfold.
  destruct (indexOf (c :: sep) s) as [j|] eqn:E.
  - intros [= <- _] pre post Hp.
    pose proof (indexOf_bound _ _ _ E) as Hb.
    assert (s = pre ++ (c :: sep) ++ (post ++ drop j s)) as Hs.
    { rewrite <- (take_drop j s) at 1. rewrite Hp, <- !app_assoc. reflexivity. }
    pose proof (indexOf_least _ _ _ _ _ E Hs) as Hle.
    apply (f_equal (@length N)) in Hp.
    rewrite length_take, !length_app in Hp. simpl in *. lia.
  - intros [= <- _]. exact (indexOf_None _ _ E).
Qed.

(** A trimmed title followed by a blank line has its first boundary right
    after the title. *)
Lemma first_boundary_after_trimmed (t b : jsstring) :
  trim t = t -> no_boundary t -> first_boundary (t ++ NLNL ++ b) t b.
Proof.
  intros Ht Hno. split; [reflexivity|]. intros pre' post' Hs.
  destruct (Nat.le_gt_cases (length t) (length pre')) as [|Hlt]; [assumption|].
  exfalso. apply app_eq_inv in Hs as [[k [Hk1 Hk2]]|[k [Hk1 Hk2]]].
  - (* [t = pre' ++ k], and the boundary starts inside [t] *)
    destruct k as [|x k].
    + rewrite app_nil_r in Hk1. subst. lia.
    + unfold NLNL in Hk2. simpl in Hk2. injection Hk2 as Hx Hk2. subst x.
      destruct k as [|y k].
      * apply trim_fixed_ends_clean in Ht. rewrite Hk1, rev_app_distr in Ht.
        simpl in Ht. discriminate Ht.
      * simpl in Hk2. injection Hk2 as Hy _. subst y.
        exact (Hno pre' k Hk1).
  - apply (f_equal (@length N)) in Hk1. rewrite length_app in Hk1. lia.
Qed.

End TrimFacts.

(** ** How runs compose *)

Section Composition.

Context {A B : Type}.

Lemma bind_run (m : M A) (k : A -> M B) (w : World) (h : list event) :
  (m ≫= k) w h =
  match m w h with
  | (Return a, t) => (result_of (k a w (h ++ t)), t ++ calls_of (k a w (h ++ t)))
  | (Throw e, t) => (Throw e, t)
  end.
Proof.
  unfold mbind, M_bind, result_of, calls_of.
  destruct (m w h) as [[a|e] t]; [|reflexivity].
  destruct (k a w (h ++ t)); reflexivity.
Qed.

Lemma try_catch_run (m : M A) (handler : js_error -> M A) (w : World) (h : list event) :
  try_catch m handler w h =
  match m w h with
  | (Return a, t) => (Return a, t)
  | (Throw e, t) =>
      (result_of (handler e w (h ++ t)), t ++ calls_of (handler e w (h ++ t)))
  end.
Proof.
  unfold try_catch, result_of, calls_of.
  destruct (m w h) as [[a|e] t]; [reflexivity|].
  destruct (handler e w (h ++ t)); reflexivity.
Qed.

(** A handler that only rethrows changes nothing. *)
Lemma try_catch_rethrow (m : M A) (w : World) (h : list event) :
  try_catch m (fun error => throw error) w h = m w h.
Proof.
  rewrite try_catch_run. destruct (m w h) as [[a|e] t]; [reflexivity|].
  unfold throw, result_of, calls_of. simpl. rewrite app_nil_r. reflexivity.
Qed.

Lemma emits_bind (P : event -> Prop) (m : M A) (k : A -> M B) :
  emits P m -> (forall a, emits P (k a)) -> emits P (m ≫= k).
Proof.
  intros Hm Hk w h. specialize (Hm w h). unfold calls_of in *. rewrite bind_run.
  destruct (m w h) as [[a|e] t]; simpl in *; [|assumption].
  apply Forall_app. split; [assumption | apply Hk].
Qed.

Lemma emits_try_catch (P : event -> Prop) (m : M A) (handler : js_error -> M A) :
  emits P m -> (forall e, emits P (handler e)) -> emits P (try_catch m handler).
Proof.
  intros Hm Hh w h. specialize (Hm w h). unfold calls_of in *. rewrite try_catch_run.
  destruct (m w h) as [[a|e] t]; simpl in *; [assumption|].
  apply Forall_app. split; [assumption | apply Hh].
Qed.

Lemma clean_bind (m : M A) (k : A -> M B) :
  clean m -> (forall a, clean (k a)) -> clean (m ≫= k).
Proof.
  intros Hm Hk w h b. specialize (Hm w h). unfold calls_of, result_of in *.
  rewrite bind_run. destruct (m w h) as [[a|e] t]; simpl in *; [|discriminate].
  intros Hb. apply Forall_app. split; [exact (Hm a eq_refl) | exact (Hk a _ _ b Hb)].
Qed.

(** A block whose handler never returns is clean when its body is. *)
Lemma clean_try_catch (m : M A) (handler : js_error -> M A) :
  clean m -> (forall e, fails (handler e)) -> clean (try_catch m handler).
Proof.
  intros Hm Hh w h a. specialize (Hm w h). unfold calls_of, result_of in *.
  rewrite try_catch_run. destruct (m w h) as [[a'|e] t]; simpl in *.
  - intros _. exact (Hm a' eq_refl).
  - intros Ha. destruct (Hh e _ _ _ Ha).
Qed.

Lemma fails_bind (m : M A) (k : A -> M B) :
  (forall a, fails (k a)) -> fails (m ≫= k).
Proof.
  intros Hk w h b. unfold result_of. rewrite bind_run.
  destruct (m w h) as [[a|e] t]; simpl; [apply Hk | discriminate].
Qed.

Lemma gated_bind (Q : event -> Prop) (m : M A) (k : A -> M B) :
  gated Q m -> clean m -> (forall a, gated Q (k a)) -> gated Q (m ≫= k).
Proof.
  intros Hg Hc Hk w h t1 ev t2. specialize (Hg w h). specialize (Hc w h).
  unfold calls_of, result_of in *. rewrite bind_run.
  destruct (m w h) as [[a|e] t]; simpl in *; [|apply Hg].
  intros Ht Hq. apply app_eq_inv in Ht as [[l [Hl1 Hl2]]|[l [Hl1 Hl2]]].
  - destruct l as [|x l].
    + rewrite app_nil_r in Hl1. subst t. simpl in Hl2.
      rewrite <- (app_nil_r t1). apply Forall_app. split; [exact (Hc a eq_refl)|].
      exact (Hk a _ _ [] ev t2 (eq_sym Hl2) Hq).
    + simpl in Hl2. injection Hl2 as <- Hl2.
      apply (Hg t1 ev l); [assumption | assumption].
  - subst t1. apply Forall_app. split; [exact (Hc a eq_refl)|].
    exact (Hk a _ _ l ev t2 Hl2 Hq).
Qed.

(** After a step that may have been refused, nothing more may be issued. *)
Lemma gated_bind_silent (Q : event -> Prop) (m : M A) (k : A -> M B) :
  gated Q m -> (forall a, emits (fun _ => False) (k a)) -> gated Q (m ≫= k).
Proof.
  intros Hg Hk w h t1 ev t2. specialize (Hg w h).
  unfold calls_of in *. rewrite bind_run.
  destruct (m w h) as [[a|e] t]; simpl in *; [|apply Hg].
  specialize (Hk a w (h ++ t)). unfold calls_of in *.
  destruct (snd (k a w (h ++ t))) as [|x l]; [|inversion Hk; contradiction].
  rewrite app_nil_r. apply Hg.
Qed.

Lemma gated_try_catch (Q : event -> Prop) (m : M A) (handler : js_error -> M A) :
  gated Q m -> (forall e, emits (fun ev => ~ Q ev) (handler e)) ->
  gated Q (try_catch m handler).
Proof.
  intros Hg Hh w h t1 ev t2. specialize (Hg w h).
  unfold calls_of in *. rewrite try_catch_run.
  destruct (m w h) as [[a|e] t]; simpl in *; [apply Hg|].
  intros Ht Hq. specialize (Hh e w (h ++ t)). unfold calls_of in *.
  apply app_eq_inv in Ht as [[l [Hl1 Hl2]]|[l [Hl1 Hl2]]].
  - destruct l as [|x l].
    + simpl in Hl2. rewrite <- Hl2 in Hh. inversion Hh; contradiction.
    + simpl in Hl2. injection Hl2 as <- Hl2. exact (Hg t1 ev l Hl1 Hq).
  - rewrite Hl2 in Hh. apply Forall_app in Hh as [_ Hh].
    inversion Hh; contradiction.
Qed.

End Composition.

Section Primitives.

Context {A : Type}.

Lemma emits_ret (P : event -> Prop) (a : A) : emits P (mret a).
Proof. intros w h. constructor. Qed.

Lemma emits_throw (P : event -> Prop) (e : js_error) : emits P (@throw A e).
Proof. intros w h. constructor. Qed.

Lemma emits_await (P : event -> Prop) (r : js_error + A) : emits P (await r).
Proof. intros w h. constructor. Qed.

Lemma emits_mono (P Q : event -> Prop) (m : M A) :
  (forall ev, P ev -> Q ev) -> emits P m -> emits Q m.
Proof. intros HPQ Hm w h. eapply Forall_impl; [exact (Hm w h) | exact HPQ]. Qed.

Lemma clean_ret (a : A) : clean (mret a).
Proof. intros w h b _. constructor. Qed.

Lemma clean_throw (e : js_error) : clean (@throw A e).
Proof. intros w h b H. discriminate H. Qed.

Lemma clean_await (r : js_error + A) : clean (await r).
Proof. intros w h b _. constructor. Qed.

Lemma fails_throw (e : js_error) : fails (@throw A e).
Proof. intros w h a H. discriminate H. Qed.

Lemma gated_silent (Q : event -> Prop) (m : M A) :
  emits (fun _ => False) m -> gated Q m.
Proof.
  intros Hm w h t1 ev t2 Ht. specialize (Hm w h). rewrite Ht in Hm.
  apply Forall_app in Hm as [_ Hm]. inversion Hm; contradiction.
Qed.

Lemma gated_single (Q : event -> Prop) (m : M A) :
  (forall w h, exists ev, calls_of (m w h) = [ev]) -> gated Q m.
Proof.
  intros Hm w h t1 ev t2 Ht _. destruct (Hm w h) as [ev' Hev]. rewrite Hev in Ht.
  destruct t1 as [|x t1]; [constructor|].
  destruct t1; discriminate Ht.
Qed.

End Primitives.

Lemma emits_process_env (P : event -> Prop) : emits P process_env.
Proof. intros w h. constructor. Qed.

Lemma clean_process_env : clean process_env.
Proof. intros w h b _. constructor. Qed.

Lemma emits_execSync (P : event -> Prop) (cmd : jsstring) :
  (forall r, P (EvExec cmd r)) -> emits P (execSync cmd).
Proof. intros HP w h. constructor; [apply HP | constructor]. Qed.

Lemma emits_messages_create (P : event -> Prop) (req : llm_request) :
  (forall r, P (EvLLM req r)) -> emits P (messages_create req).
Proof. intros HP w h. constructor; [apply HP | constructor]. Qed.

Lemma emits_fetch (P : event -> Prop) (url : jsstring) (req : http_request) :
  (forall r, P (EvFetch url req r)) -> emits P (fetch url req).
Proof. intros HP w h. constructor; [apply HP | constructor]. Qed.

Lemma clean_execSync (cmd : jsstring) : clean (execSync cmd).
Proof.
  intros w h out. unfold execSync, result_of, calls_of. simpl.
  destruct (sh w h cmd); simpl; [discriminate|]. intros _. repeat constructor.
Qed.

Lemma clean_messages_create (req : llm_request) : clean (messages_create req).
Proof.
  intros w h out. unfold messages_create, result_of, calls_of. simpl.
  destruct (llm w h req); simpl; [discriminate|]. intros _. repeat constructor.
Qed.

(** The request to the hosting API, followed by a continuation that
    rejects every response outside 200-299. *)
Lemma clean_fetch_bind {B : Type} (url : jsstring) (req : http_request)
    (k : http_response -> M B) :
  (forall resp, response_ok resp = false -> fails (k resp)) ->
  (forall resp, clean (k resp)) ->
  clean (fetch url req ≫= k).
Proof.
  intros Hrej Hk w h b. unfold result_of, calls_of. rewrite bind_run.
  unfold fetch. simpl.
  destruct (http w h url req) as [e|resp]; simpl; [discriminate|].
  intros Hb. constructor.
  - simpl. destruct (response_ok resp) eqn:Hok; [reflexivity|].
    destruct (Hrej resp Hok _ _ _ Hb).
  - exact (Hk resp _ _ b Hb).
Qed.

(** ** The rules applied to the script *)

Create HintDb script_rules.

Ltac emits_step side :=
  cbv beta zeta;
  lazymatch goal with
  | |- emits _ (_ ≫= _) => apply emits_bind; [|intros ?]
  | |- emits _ (try_catch _ _) => apply emits_try_catch; [|intros ?]
  | |- emits _ (mret _) => apply emits_ret
  | |- emits _ (throw _) => apply emits_throw
  | |- emits _ (await _) => apply emits_await
  | |- emits _ process_env => apply emits_process_env
  | |- emits _ (execSync _) => apply emits_execSync; intros ?; side
  | |- emits _ (messages_create _) => apply emits_messages_create; intros ?; side
  | |- emits _ (fetch _ _) => apply emits_fetch; intros ?; side
  | |- emits _ (if ?b then _ else _) => destruct b
  | |- emits _ (match ?x with _ => _ end) => destruct x
  | |- emits _ _ => solve [eauto with script_rules]
  end.

Ltac fails_step :=
  cbv beta zeta;
  lazymatch goal with
  | |- fails (_ ≫= _) => apply fails_bind; intros ?
  | |- fails (throw _) => apply fails_throw
  end.

Ltac rejects_step :=
  let resp := fresh "resp" in
  let Hok := fresh "Hok" in
  intros resp Hok; cbv beta; rewrite Hok; simpl negb; cbv iota; repeat fails_step.

Ltac clean_step :=
  cbv beta zeta;
  lazymatch goal with
  | |- clean (fetch _ _ ≫= _) => apply clean_fetch_bind; [rejects_step | intros ?]
  | |- clean (_ ≫= _) => apply clean_bind; [|intros ?]
  | |- clean (try_catch _ _) => apply clean_try_catch; [|intros ?; repeat fails_step]
  | |- clean (mret _) => apply clean_ret
  | |- clean (throw _) => apply clean_throw
  | |- clean (await _) => apply clean_await
  | |- clean process_env => apply clean_process_env
  | |- clean (execSync _) => apply clean_execSync
  | |- clean (messages_create _) => apply clean_messages_create
  | |- clean (if ?b then _ else _) => destruct b
  | |- clean (match ?x with _ => _ end) => destruct x
  | |- clean _ => solve [eauto with script_rules]
  end.

(** Nothing is issued by the part of a run that follows the request. *)
Ltac silent := repeat emits_step ltac:(idtac).

Ltac gated_step side :=
  cbv beta zeta;
  lazymatch goal with
  | |- gated _ (fetch _ _ ≫= _) =>
      apply gated_bind_silent;
      [ apply gated_single; intros ? ?; eexists; reflexivity | intros ?; silent ]
  | |- gated _ (_ ≫= _) => apply gated_bind; [ | repeat clean_step | intros ?]
  | |- gated _ (try_catch _ _) =>
      apply gated_try_catch; [|intros ?; repeat emits_step side]
  | |- gated _ (mret _) => apply gated_silent, emits_ret
  | |- gated _ (throw _) => apply gated_silent, emits_throw
  | |- gated _ (await _) => apply gated_silent, emits_await
  | |- gated _ process_env => apply gated_silent, emits_process_env
  | |- gated _ (execSync _) => apply gated_single; intros ? ?; eexists; reflexivity
  | |- gated _ (messages_create _) => apply gated_single; intros ? ?; eexists; reflexivity
  | |- gated _ (if ?b then _ else _) => destruct b
  | |- gated _ (match ?x with _ => _ end) => destruct x
  | |- gated _ _ => solve [eauto with script_rules]
  end.

Lemma getCurrentBranch_clean : clean getCurrentBranch.
Proof. unfold getCurrentBranch. repeat clean_step. Qed.

#[export] Hint Resolve getCurrentBranch_clean : script_rules.

Lemma syncWithMain_clean : clean syncWithMain.
Proof. unfold syncWithMain. repeat clean_step. Qed.

Lemma generatePRMessage_clean : clean generatePRMessage.
Proof. unfold generatePRMessage. repeat clean_step. Qed.

Lemma createPR_clean (o : PullRequestOptions) (m : generated_message) :
  clean (createPR o m).
Proof. unfold createPR. repeat clean_step. Qed.

Lemma createGitHubIssue_clean (o : GitHubIssueOptions) : clean (createGitHubIssue o).
Proof. unfold createGitHubIssue. repeat clean_step. Qed.

#[export] Hint Resolve syncWithMain_clean generatePRMessage_clean createPR_clean
  createGitHubIssue_clean : script_rules.

Lemma createPRToMain_clean : clean createPRToMain.
Proof. unfold createPRToMain. repeat clean_step. Qed.

Ltac abort_side :=
  let H := fresh in intros H; apply H; eexists; reflexivity.

Ltac fail_fast := repeat gated_step abort_side.

Lemma getCurrentBranch_fail_fast :
  gated (fun ev => ~ runs GIT_REBASE_ABORT ev) getCurrentBranch.
Proof. unfold getCurrentBranch. fail_fast. Qed.

#[export] Hint Resolve getCurrentBranch_fail_fast : script_rules.

Lemma syncWithMain_fail_fast :
  gated (fun ev => ~ runs GIT_REBASE_ABORT ev) syncWithMain.
Proof. unfold syncWithMain. fail_fast. Qed.

Lemma generatePRMessage_fail_fast :
  gated (fun ev => ~ runs GIT_REBASE_ABORT ev) generatePRMessage.
Proof. unfold generatePRMessage. fail_fast. Qed.

Lemma createPR_fail_fast (o : PullRequestOptions) (m : generated_message) :
  gated (fun ev => ~ runs GIT_REBASE_ABORT ev) (createPR o m).
Proof. unfold createPR. fail_fast. Qed.

Lemma createGitHubIssue_fail_fast (o : GitHubIssueOptions) :
  gated (fun ev => ~ runs GIT_REBASE_ABORT ev) (createGitHubIssue o).
Proof. unfold createGitHubIssue. fail_fast. Qed.

#[export] Hint Resolve syncWithMain_fail_fast generatePRMessage_fail_fast
  createPR_fail_fast createGitHubIssue_fail_fast : script_rules.

Lemma createPRToMain_fail_fast :
  gated (fun ev => ~ runs GIT_REBASE_ABORT ev) createPRToMain.
Proof. unfold createPRToMain. fail_fast. Qed.

Section Reaching.

Context {A B : Type}.

Lemma reaches_bind_l (Q : event -> Prop) (m : M A) (k : A -> M B) :
  reaches Q m -> reaches Q (m ≫= k).
Proof.
  intros Hm w h b. specialize (Hm w h). unfold result_of, calls_of in *.
  rewrite bind_run. destruct (m w h) as [[a|e] t]; simpl in *; [|discriminate].
  intros _. apply Exists_app. left. exact (Hm a eq_refl).
Qed.

Lemma reaches_bind_r (Q : event -> Prop) (m : M A) (k : A -> M B) :
  (forall a, reaches Q (k a)) -> reaches Q (m ≫= k).
Proof.
  intros Hk w h b. unfold result_of, calls_of in *.
  rewrite bind_run. destruct (m w h) as [[a|e] t]; simpl in *; [|discriminate].
  intros Hb. apply Exists_app. right. exact (Hk a _ _ b Hb).
Qed.

Lemma reaches_try_catch (Q : event -> Prop) (m : M A) (handler : js_error -> M A) :
  reaches Q m -> (forall e, fails (handler e)) -> reaches Q (try_catch m handler).
Proof.
  intros Hm Hh w h a. specialize (Hm w h). unfold result_of, calls_of in *.
  rewrite try_catch_run. destruct (m w h) as [[a'|e] t]; simpl in *.
  - intros _. exact (Hm a' eq_refl).
  - intros Ha. destruct (Hh e _ _ _ Ha).
Qed.

End Reaching.

Lemma reaches_execSync (Q : event -> Prop) (cmd : jsstring) :
  (forall out, Q (EvExec cmd (inr out))) -> reaches Q (execSync cmd).
Proof.
  intros HQ w h out. unfold execSync, result_of, calls_of. simpl.
  destruct (sh w h cmd); simpl; [discriminate|]. intros _. left. apply HQ.
Qed.

Lemma reaches_messages_create (req : llm_request) :
  reaches is_answer (messages_create req).
Proof.
  intros w h out. unfold messages_create, result_of, calls_of. simpl.
  destruct (llm w h req) as [e|msg]; simpl; [discriminate|]. intros _. left.
  exists req, msg. reflexivity.
Qed.

Lemma reaches_fetch_bind {B : Type} (url : jsstring) (req : http_request)
    (k : http_response -> M B) :
  (forall resp, response_ok resp = false -> fails (k resp)) ->
  reaches is_accepted (fetch url req ≫= k).
Proof.
  intros Hrej w h b. unfold result_of, calls_of. rewrite bind_run.
  unfold fetch. simpl.
  destruct (http w h url req) as [e|resp]; simpl; [discriminate|].
  intros Hb. left. exists url, req, resp. split; [reflexivity|].
  destruct (response_ok resp) eqn:Hok; [reflexivity|].
  destruct (Hrej resp Hok _ _ _ Hb).
Qed.

Lemma syncWithMain_reaches_force_push :
  reaches (fun ev => exists out, ev = EvExec GIT_FORCE_PUSH (inr out)) syncWithMain.
Proof.
  unfold syncWithMain.
  apply reaches_bind_r; intros b. apply reaches_bind_r; intros _.
  apply reaches_bind_r; intros _.
  apply reaches_try_catch; [|intros e; repeat fails_step].
  apply reaches_bind_r; intros _. apply reaches_bind_l.
  apply reaches_execSync. intros out. exists out. reflexivity.
Qed.

Lemma generatePRMessage_reaches_answer : reaches is_answer generatePRMessage.
Proof.
  unfold generatePRMessage. apply reaches_bind_r; intros e. cbv zeta.
  destruct (negb _); [intros w h a H; discriminate H|].
  apply reaches_bind_r; intros d. apply reaches_bind_l.
  apply reaches_messages_create.
Qed.

Lemma createPR_reaches_accepted (o : PullRequestOptions) (m : generated_message) :
  reaches is_accepted (createPR o m).
Proof.
  unfold createPR. apply reaches_bind_r; intros b. apply reaches_bind_r; intros e.
  cbv zeta. apply reaches_fetch_bind. rejects_step.
Qed.

Lemma createGitHubIssue_reaches_accepted (o : GitHubIssueOptions) :
  reaches is_accepted (createGitHubIssue o).
Proof.
  unfold createGitHubIssue. apply reaches_bind_r; intros b.
  apply reaches_bind_r; intros e.
  cbv zeta. apply reaches_fetch_bind. rejects_step.
Qed.

(** ** Synchronising with main: the remaining paths *)

(** X1. [syncWithMain] returns normally exactly when the force-push with
    lease succeeded; its calls are then the branch resolution followed by
    push, fetch, rebase and force-push, each answered without error, and no
    abort. *)
Theorem syncWithMain_success (w : World) (h : list event) :
  (result_of (syncWithMain w h) = Return tt <->
   exists out, In (EvExec GIT_FORCE_PUSH (inr out)) (calls_of (syncWithMain w h))) /\
  (result_of (syncWithMain w h) = Return tt ->
   exists b o1 o2 o3 o4,
     calls_of (syncWithMain w h) =
       calls_of (getCurrentBranch w h) ++
       [EvExec (GIT_PUSH_ORIGIN b) (inr o1); EvExec GIT_FETCH (inr o2);
        EvExec GIT_REBASE (inr o3); EvExec GIT_FORCE_PUSH (inr o4)]).
Proof.
  sync_cases w h R T t; simpl.
  1-5: split; [split|];
    try (intros H; try destruct a; discriminate H);
    intros [out Hin];
    first [ apply T in Hin; destruct Hin as [? Hin]; js_discriminate
          | in_trace Hin T ].
  split; [split|].
  - intros _. exists o4. apply in_or_app. right. simpl. auto.
  - reflexivity.
  - intros _. exists b, o1, o2, o3, o4. reflexivity.
Qed.

Lemma syncWithMain_success_witness :
  exists b o1 o2 o3 o4,
    calls_of (syncWithMain synced_world []) =
      calls_of (getCurrentBranch synced_world []) ++
      [EvExec (GIT_PUSH_ORIGIN b) (inr o1); EvExec GIT_FETCH (inr o2);
       EvExec GIT_REBASE (inr o3); EvExec GIT_FORCE_PUSH (inr o4)].
Proof.
  apply (proj2 (syncWithMain_success synced_world [])).
  vm_compute. reflexivity.
Defined.

(** X2. A failed fetch is outside every handler: its error reaches the
    caller unchanged, it is the last call of the run, and neither the
    rebase, nor the force-push, nor the abort is issued. *)
Theorem fetch_failure_propagates (w : World) (h : list event) (e : js_error) :
  In (EvExec GIT_FETCH (inl e)) (calls_of (syncWithMain w h)) ->
  result_of (syncWithMain w h) = Throw e /\
  (exists pre, calls_of (syncWithMain w h) = pre ++ [EvExec GIT_FETCH (inl e)]) /\
  (forall r, ~ In (EvExec GIT_REBASE r) (calls_of (syncWithMain w h))) /\
  (forall r, ~ In (EvExec GIT_FORCE_PUSH r) (calls_of (syncWithMain w h))) /\
  (forall r, ~ In (EvExec GIT_REBASE_ABORT r) (calls_of (syncWithMain w h))).
Proof.
  intros Hin. sync_cases w h R T t; simpl in *;
    [ apply T in Hin; destruct Hin as [? Hin]; js_discriminate
    | in_trace Hin T .. ].
  assert (e0 = e) as -> by congruence.
  split; [reflexivity|]. split.
  - exists (t ++ [EvExec (GIT_PUSH_ORIGIN b) (inr o1)]).
    rewrite <- app_assoc. reflexivity.
  - repeat split; intros r Hr; in_trace Hr T.
Qed.

Lemma fetch_failure_propagates_witness :
  result_of (syncWithMain fetch_failed_world []) = Throw (command_failed GIT_FETCH).
Proof.
  apply (fetch_failure_propagates fetch_failed_world [] (command_failed GIT_FETCH)).
  vm_compute. do 2 right. left. reflexivity.
Defined.

(** X3. The abort command is issued only after a failed rebase or a failed
    force-push, and a run that issued it never returns normally. *)
Theorem abort_only_after_failure (w : World) (h : list event)
    (a : js_error + jsstring) :
  In (EvExec GIT_REBASE_ABORT a) (calls_of (syncWithMain w h)) ->
  ((exists e, In (EvExec GIT_REBASE (inl e)) (calls_of (syncWithMain w h))) \/
   (exists e, In (EvExec GIT_FORCE_PUSH (inl e)) (calls_of (syncWithMain w h)))) /\
  (exists e, result_of (syncWithMain w h) = Throw e).
Proof.
  intros Hin. sync_cases w h R T t; simpl in *;
    [ apply T in Hin; destruct Hin as [? Hin]; js_discriminate
    | in_trace Hin T .. ].
  - assert (a0 = a) as -> by congruence. split.
    + left. exists e. apply in_or_app. right. simpl. auto.
    + destruct a as [e'|out]; eexists; reflexivity.
  - assert (a0 = a) as -> by congruence. split.
    + right. exists e. apply in_or_app. right. simpl. auto 6.
    + destruct a as [e'|out]; eexists; reflexivity.
Qed.

Lemma abort_only_after_failure_witness :
  exists e, result_of (syncWithMain conflict_world []) = Throw e.
Proof.
  apply (abort_only_after_failure conflict_world [] (inr (js "feature-x"))).
  vm_compute. do 4 right. left. reflexivity.
Defined.

(** X4. [syncWithMain] does nothing when the branch cannot be resolved,
    and otherwise pushes exactly the resolved name: the command line is
    [git push origin ] followed by that name as it is.  In a deployment
    environment the name is the value of [VERCEL_GIT_COMMIT_REF], unquoted. *)
Theorem syncWithMain_pushes_resolved_branch (w : World) (h : list event) :
  (forall e, result_of (getCurrentBranch w h) = Throw e ->
     syncWithMain w h = (Throw e, calls_of (getCurrentBranch w h))) /\
  (forall b, result_of (getCurrentBranch w h) = Return b ->
     exists r rest,
       calls_of (syncWithMain w h) =
       calls_of (getCurrentBranch w h) ++ EvExec (js "git push origin " ++ b) r :: rest) /\
  (forall b, truthy (env w !! "VERCEL") = true ->
     env w !! "VERCEL_GIT_COMMIT_REF" = Some b -> b <> [] ->
     exists r rest,
       calls_of (syncWithMain w h) = EvExec (js "git push origin " ++ b) r :: rest).
Proof.
  assert (forall b, result_of (getCurrentBranch w h) = Return b ->
     exists r rest,
       calls_of (syncWithMain w h) =
       calls_of (getCurrentBranch w h) ++ EvExec (js "git push origin " ++ b) r :: rest)
    as Hpush.
  { intros b. unfold syncWithMain, result_of, calls_of. rewrite bind_run.
    destruct (getCurrentBranch w h) as [[b'|e] t]; simpl; [|discriminate].
    intros [= ->]. rewrite bind_run, try_catch_run. unfold execSync at 1. simpl.
    destruct (sh w (h ++ t) (js "git push origin " ++ b)) as [e|out]; simpl.
    - eexists _, _. reflexivity.
    - unfold calls_of. simpl. eexists _, _. reflexivity. }
  split; [|split].
  - intros e. unfold syncWithMain, result_of, calls_of. rewrite bind_run.
    destruct (getCurrentBranch w h) as [[b|e'] t]; simpl; [discriminate|].
    intros [= ->]. reflexivity.
  - exact Hpush.
  - intros b Hv Hb Hne. specialize (Hpush b). revert Hpush.
    rewrite (getCurrentBranch_vercel w h Hv), Hb. unfold result_of, calls_of. simpl.
    destruct b; [congruence|]. intros Hpush. exact (Hpush eq_refl).
Qed.

Lemma syncWithMain_pushes_resolved_branch_witness :
  syncWithMain no_repo_world [] =
  (Throw (new_Error (js "Unable to determine branch name")),
   calls_of (getCurrentBranch no_repo_world [])).
Proof.
  apply (proj1 (syncWithMain_pushes_resolved_branch no_repo_world [])).
  vm_compute. reflexivity.
Defined.

(** X5. [syncWithMain] is fail-fast: apart from the abort command of its
    handler, a call is issued only when every earlier call of the run
    succeeded; and it talks to git only, never to the model or to the
    hosting API. *)
Theorem syncWithMain_fails_fast (w : World) (h : list event) :
  (forall t1 ev t2,
     calls_of (syncWithMain w h) = t1 ++ ev :: t2 ->
     ~ runs GIT_REBASE_ABORT ev -> Forall succeeded t1) /\
  Forall (fun ev => ~ is_remote ev) (calls_of (syncWithMain w h)).
Proof.
  split.
  - exact (syncWithMain_fail_fast w h).
  - assert (emits (fun ev => ~ is_remote ev) syncWithMain) as H
      by (unfold syncWithMain, getCurrentBranch;
          repeat emits_step ltac:(simpl; tauto)).
    exact (H w h).
Qed.

Lemma syncWithMain_fails_fast_witness :
  Forall succeeded
    [EvExec GIT_BRANCH_QUERY (inr (js "feature-x"));
     EvExec (GIT_PUSH_ORIGIN (js "feature-x")) (inr (js "feature-x"));
     EvExec GIT_FETCH (inr (js "feature-x"))].
Proof.
  apply (proj1 (syncWithMain_fails_fast conflict_world [])
           _ (EvExec GIT_REBASE (inl (command_failed GIT_REBASE)))
           [EvExec GIT_REBASE_ABORT (inr (js "feature-x"))]).
  - vm_compute. reflexivity.
  - intros [r H]. js_discriminate.
Defined.

(** ** Generating the message: the remaining paths *)

Section MessageRuns.

Variables (w : World) (h : list event).

(** The three shapes of a run of [generatePRMessage] that has a key. *)
Lemma generatePRMessage_shape :
  truthy (env w !! "ANTHROPIC_API_KEY") = true ->
  (exists e, generatePRMessage w h = (Throw e, [EvExec GIT_DIFF (inl e)])) \/
  (exists d req r,
     calls_of (generatePRMessage w h) = [EvExec GIT_DIFF (inr d); EvLLM req r] /\
     api_key req = default [] (env w !! "ANTHROPIC_API_KEY") /\
     model req = js "claude-3-5-sonnet-latest" /\
     max_tokens req = 1000 /\ temperature req = 0 /\
     system req = [SYSTEM_PROMPT] /\
     user_text req = PROMPT ++ NLNL ++ d /\
     (forall e, r = inl e -> result_of (generatePRMessage w h) = Throw e)).
Proof.
  intros Hk. unfold generatePRMessage, GIT_DIFF, PROMPT. unfold_M. simpl.
  rewrite Hk. simpl. world_step; [left; eexists; reflexivity|].
  right. world_step.
  - eexists _, _, _. split; [reflexivity|]. repeat split.
    intros e [= ->]. reflexivity.
  - match goal with |- context [content ?m] => destruct (content m) as [|[text|? ?] ?] end;
      simpl; try (destruct (split_loop 10 [10] _); simpl);
      (eexists _, _, _; split; [reflexivity|]; repeat split; intros e; discriminate).
Qed.

Lemma answers_of_reached (calls : list event) :
  Exists is_answer calls -> exists msg, In msg (answers calls).
Proof.
  intros H. apply Exists_exists in H as (ev & Hev & req & msg & ->).
  exists msg. unfold answers. apply in_flat_map.
  exists (EvLLM req (inr msg)). split; [|left; reflexivity].
  apply list_elem_of_In. exact Hev.
Qed.

(** A returned message comes from the first piece of a split. *)
Lemma generatePRMessage_returned (m : generated_message) :
  result_of (generatePRMessage w h) = Return m ->
  exists text p rest,
    split NLNL text = p :: rest /\
    m = {| title := trim p; body := trim (join NLNL rest) |}.
Proof.
  intros Hm.
  destruct (answers_of_reached _ (generatePRMessage_reaches_answer w h m Hm))
    as [msg Hin].
  rewrite (generatePRMessage_answered w h msg Hin) in Hm.
  destruct (content msg) as [|block blocks]; [discriminate|]. simpl in Hm.
  match type of Hm with
  | context [split_loop 10 [10] ?text] =>
      change (split_loop 10 [10] text) with (split NLNL text) in Hm;
      exists text; destruct (split NLNL text) as [|p rest]; [discriminate|]
  end.
  exists p, rest. split; [reflexivity|]. congruence.
Qed.

End MessageRuns.

(** X6. Failures of [generatePRMessage] pass through unchanged and nothing
    is tried again: after a failed [git diff] the model is never called,
    and a failed model call is the last call of the run. *)
Theorem generatePRMessage_failures (w : World) (h : list event) :
  (forall e, In (EvExec GIT_DIFF (inl e)) (calls_of (generatePRMessage w h)) ->
     generatePRMessage w h = (Throw e, [EvExec GIT_DIFF (inl e)])) /\
  (forall req e, In (EvLLM req (inl e)) (calls_of (generatePRMessage w h)) ->
     result_of (generatePRMessage w h) = Throw e /\
     exists d, calls_of (generatePRMessage w h) =
               [EvExec GIT_DIFF (inr d); EvLLM req (inl e)]).
Proof.
  destruct (truthy (env w !! "ANTHROPIC_API_KEY")) eqn:Hk.
  - destruct (generatePRMessage_shape w h Hk)
      as [[e0 Hrun]|(d & req0 & r & Hcalls & _ & _ & _ & _ & _ & _ & Hr)].
    + rewrite Hrun. unfold calls_of, result_of. simpl. split.
      * intros e [H|[]]. congruence.
      * intros req e [H|[]]. discriminate H.
    + rewrite Hcalls. split.
      * intros e [H|[H|[]]]; discriminate H.
      * intros req e [H|[H|[]]]; [discriminate H|].
        injection H as -> ->. split; [apply Hr; reflexivity|].
        exists d. reflexivity.
  - rewrite (generatePRMessage_no_key w h Hk). split.
    + intros e [].
    + intros req e [].
Qed.

Lemma generatePRMessage_failures_witness :
  generatePRMessage diff_failed_world [] =
    (Throw (command_failed GIT_DIFF), [EvExec GIT_DIFF (inl (command_failed GIT_DIFF))])
  /\
  result_of (generatePRMessage model_down_world []) = Throw overloaded.
Proof.
  split.
  - apply (proj1 (generatePRMessage_failures diff_failed_world [])).
    vm_compute. left. reflexivity.
  - refine (proj1 (proj2 (generatePRMessage_failures model_down_world []) _ _ _)).
    vm_compute. right. left. reflexivity.
Defined.

(** X7. What the model is asked: one request per run at most, issued right
    after a successful [git diff origin/main]; its user text is the fixed
    prompt, a blank line and the output of that diff as it is; the key is
    the one of the environment; temperature 0 and at most 1000 tokens. *)
Theorem model_request (w : World) (h : list event) (req : llm_request)
    (r : js_error + llm_message) :
  In (EvLLM req r) (calls_of (generatePRMessage w h)) ->
  exists d,
    calls_of (generatePRMessage w h) = [EvExec GIT_DIFF (inr d); EvLLM req r] /\
    user_text req = PROMPT ++ NLNL ++ d /\
    env w !! "ANTHROPIC_API_KEY" = Some (api_key req) /\
    api_key req <> [] /\
    model req = js "claude-3-5-sonnet-latest" /\
    temperature req = 0 /\
    max_tokens req = 1000 /\
    system req = [SYSTEM_PROMPT].
Proof.
  destruct (truthy (env w !! "ANTHROPIC_API_KEY")) eqn:Hk.
  - destruct (generatePRMessage_shape w h Hk)
      as [[e0 Hrun]|(d & req0 & r0 & Hcalls & Hkey & Hmodel & Hmax & Htemp & Hsys & Htext & _)].
    + rewrite Hrun. intros [H|[]]. discriminate H.
    + rewrite Hcalls. intros [H|[H|[]]]; [discriminate H|].
      injection H as -> ->. exists d. split; [reflexivity|].
      split; [assumption|].
      destruct (env w !! "ANTHROPIC_API_KEY") as [[|c key]|]; try discriminate Hk.
      simpl in Hkey. rewrite Hkey. repeat split; try assumption. discriminate.
  - rewrite (generatePRMessage_no_key w h Hk). intros [].
Qed.

Lemma model_request_witness :
  exists d req,
    calls_of (generatePRMessage model_down_world []) =
      [EvExec GIT_DIFF (inr d); EvLLM req (inl overloaded)] /\
    user_text req = PROMPT ++ NLNL ++ d.
Proof.
  destruct (model_request model_down_world []
              {| api_key := js "sk-test";
                 model := js "claude-3-5-sonnet-latest";
                 max_tokens := 1000;
                 temperature := 0;
                 system := [SYSTEM_PROMPT];
                 user_text := PROMPT ++ NLNL ++ js "diff --git a/a.txt b/a.txt" |}
              (inl overloaded))
    as (d & Hcalls & Htext & _).
  - vm_compute. right. left. reflexivity.
  - eexists d, _. split; [exact Hcalls | exact Htext].
Defined.

(** X8. An answer without any content block is not parsed: reading the
    type of its first block throws a [TypeError]. *)
Theorem empty_answer_throws (w : World) (h : list event) (msg : llm_message) :
  In msg (answers (calls_of (generatePRMessage w h))) ->
  content msg = [] ->
  result_of (generatePRMessage w h) =
  Throw (new_TypeError (js "Cannot read properties of undefined (reading 'type')")).
Proof.
  intros Hin Hc. rewrite (generatePRMessage_answered w h msg Hin), Hc. reflexivity.
Qed.

Lemma empty_answer_throws_witness :
  result_of (generatePRMessage empty_answer_world []) =
  Throw (new_TypeError (js "Cannot read properties of undefined (reading 'type')")).
Proof.
  apply (empty_answer_throws empty_answer_world [] {| content := [] |}).
  - vm_compute. left. reflexivity.
  - reflexivity.
Defined.

(** X9. Every message [generatePRMessage] returns is in normal form: its
    title and its body carry no white space at either end (trimming them
    again changes nothing) and the title holds no blank line. *)
Theorem returned_message_normal (w : World) (h : list event) (m : generated_message) :
  result_of (generatePRMessage w h) = Return m ->
  trim (title m) = title m /\
  trim (body m) = body m /\
  no_boundary (title m).
Proof.
  intros Hm. destruct (generatePRMessage_returned w h m Hm) as (text & p & rest & Hs & ->).
  simpl. split; [apply trim_trim|]. split; [apply trim_trim|].
  destruct (trim_infix p) as (a & b & Hp).
  apply (no_boundary_infix a (trim p) b). rewrite <- Hp.
  unfold NLNL in Hs. exact (split_head_no_occurrence _ _ _ _ _ Hs).
Qed.

Lemma returned_message_normal_witness :
  trim (js "Add login flow") = js "Add login flow" /\
  trim (js "This PR adds OAuth login.") = js "This PR adds OAuth login." /\
  no_boundary (js "Add login flow").
Proof.
  apply (returned_message_normal
           (answering_world
              (js "  Add login flow " ++ NLNL ++ js "This PR adds OAuth login." ++ [10]))
           []
           {| title := js "Add login flow"; body := js "This PR adds OAuth login." |}).
  vm_compute. reflexivity.
Defined.

(** X10. Round trip: when the model answers a trimmed title without blank
    line, a blank line, and a trimmed body, the message returned is exactly
    that title and that body. *)
Theorem title_body_round_trip (w : World) (h : list event) (msg : llm_message)
    (t b : jsstring) (rest : list content_block) :
  In msg (answers (calls_of (generatePRMessage w h))) ->
  content msg = TextBlock (t ++ NLNL ++ b) :: rest ->
  trim t = t -> no_boundary t -> trim b = b ->
  result_of (generatePRMessage w h) = Return {| title := t; body := b |}.
Proof.
  intros Hin Hc Ht Hno Hb.
  rewrite (generatePRMessage_first_boundary w h msg _ t b rest Hin Hc
             (first_boundary_after_trimmed t b Ht Hno)).
  rewrite Ht, Hb. reflexivity.
Qed.

Lemma title_body_round_trip_witness :
  result_of (generatePRMessage
               (answering_world (js "Add login flow" ++ NLNL ++ js "This PR adds OAuth login."))
               [])
  = Return {| title := js "Add login flow"; body := js "This PR adds OAuth login." |}.
Proof.
  apply (title_body_round_trip _ []
           {| content := [TextBlock (js "Add login flow" ++ NLNL
                                       ++ js "This PR adds OAuth login.")] |}
           (js "Add login flow") (js "This PR adds OAuth login.") []).
  - vm_compute. left. reflexivity.
  - reflexivity.
  - vm_compute. reflexivity.
  - unfold no_boundary. apply (indexOf_None NLNL). vm_compute. reflexivity.
  - vm_compute. reflexivity.
Defined.

(** ** The hosting API: the remaining paths *)

Lemma responses_app (t t' : list event) :
  responses (t ++ t') = responses t ++ responses t'.
Proof. apply flat_map_app. Qed.

Lemma responses_branch_calls (w : World) (h : list event) :
  responses (snd (getCurrentBranch w h)) = [].
Proof.
  pose proof (getCurrentBranch_calls w h) as T.
  induction (snd (getCurrentBranch w h)) as [|ev t IH]; [reflexivity|].
  unfold responses in *. simpl.
  destruct (T ev (or_introl eq_refl)) as [r ->]. simpl.
  apply IH. intros ev' Hev'. apply T. right. assumption.
Qed.

(** Case analysis on a whole run of a hosting operation. *)
Ltac hosting_run w h :=
  let b := fresh "b" in
  let t := fresh "t" in
  let resp := fresh "resp" in
  pose proof (responses_branch_calls w h);
  unfold_M; simpl;
  destruct (getCurrentBranch w h) as [[b|?] t]; simpl in *;
  [ match goal with
    | |- context [http w ?hh ?u ?r] => destruct (http w hh u r) as [?|resp] eqn:?; simpl
    end;
    [ | destruct (response_ok resp) eqn:?; simpl;
        [ destruct (resp_json resp) as [?|[|?]] eqn:?; simpl
        | destruct (resp_text resp) as [?|?] eqn:?; simpl ] ]
  | ];
  rewrite ?app_nil_r.

Ltac one_response H :=
  rewrite responses_app in H;
  match goal with Hb : responses _ = [] |- _ => rewrite Hb in H end;
  simpl in H; destruct H as [H|H]; [subst | contradiction].

(** X11. [createPR] returns a value exactly when the hosting API answered
    with a status in 200-299 and a JSON body other than [null]; the value is
    that parsed body.  [createGitHubIssue] returns under the same
    condition. *)
Theorem hosting_returns_iff (w : World) (h : list event) :
  (forall o m v,
     result_of (createPR o m w h) = Return v <->
     exists resp, In resp (responses (calls_of (createPR o m w h))) /\
                  response_ok resp = true /\ resp_json resp = inr v /\ v <> JNull) /\
  (forall o,
     result_of (createGitHubIssue o w h) = Return tt <->
     exists resp v, In resp (responses (calls_of (createGitHubIssue o w h))) /\
                    response_ok resp = true /\ resp_json resp = inr v /\ v <> JNull).
Proof.
  split.
  - intros o m v. unfold createPR. hosting_run w h;
      (split;
       [ first
           [ discriminate
           | intros [= <-]; eexists; split;
             [ rewrite responses_app; apply in_or_app; right; left; reflexivity
             | split; [assumption | split; [assumption | discriminate]] ] ]
       | intros (resp' & Hin & Hok & Hj & Hv);
         first [ one_response Hin; congruence
               | rewrite ?responses_app in Hin;
                 match goal with Hb : responses _ = [] |- _ => rewrite Hb in Hin end;
                 simpl in Hin; contradiction ] ]).
  - intros o. unfold createGitHubIssue. hosting_run w h;
      (split;
       [ first
           [ discriminate
           | intros _; eexists _, _; split;
             [ rewrite responses_app; apply in_or_app; right; left; reflexivity
             | split; [assumption | split; [eassumption | discriminate]] ] ]
       | intros (resp' & v & Hin & Hok & Hj & Hv);
         first [ reflexivity
               | one_response Hin; congruence
               | rewrite ?responses_app in Hin;
                 match goal with Hb : responses _ = [] |- _ => rewrite Hb in Hin end;
                 simpl in Hin; contradiction ] ]).
Qed.

Lemma hosting_returns_iff_witness :
  result_of (createPR sample_pull sample_message synced_world []) = Return (JValue [])
  /\
  forall v, result_of (createPR sample_pull sample_message null_body_world []) <> Return v.
Proof.
  split.
  - apply (proj1 (hosting_returns_iff synced_world [])).
    exists (created []). split; [vm_compute; left; reflexivity|].
    split; [reflexivity|]. split; [reflexivity | discriminate].
  - intros v Hv.
    apply (proj1 (hosting_returns_iff null_body_world [])) in Hv
      as (resp & Hin & _ & Hj & Hnull).
    vm_compute in Hin. destruct Hin as [<-|[]]. simpl in Hj. congruence.
Defined.

(** X12. Both hosting operations need a branch before anything else: when
    the branch cannot be resolved they fail with that error and send no
    request, although an issue names no branch. *)
Theorem hosting_needs_branch (w : World) (h : list event) (e : js_error) :
  result_of (getCurrentBranch w h) = Throw e ->
  (forall o m, createPR o m w h = (Throw e, calls_of (getCurrentBranch w h))) /\
  (forall o, createGitHubIssue o w h = (Throw e, calls_of (getCurrentBranch w h))).
Proof.
  intros Hb. split.
  - intros o m. unfold createPR. rewrite bind_run. unfold result_of, calls_of in *.
    destruct (getCurrentBranch w h) as [[b|e'] t]; simpl in *; congruence.
  - intros o. unfold createGitHubIssue. rewrite bind_run.
    unfold result_of, calls_of in *.
    destruct (getCurrentBranch w h) as [[b|e'] t]; simpl in *; congruence.
Qed.

Lemma hosting_needs_branch_witness :
  createGitHubIssue sample_issue no_repo_world [] =
  (Throw (new_Error (js "Unable to determine branch name")),
   [EvExec GIT_BRANCH_QUERY (inl (command_failed GIT_BRANCH_QUERY))]).
Proof.
  apply (proj2 (hosting_needs_branch no_repo_world []
                  (new_Error (js "Unable to determine branch name"))
                  ltac:(vm_compute; reflexivity))).
Defined.

Lemma token_undefined : js "token " ++ render None = js "token undefined".
Proof. vm_compute. reflexivity. Qed.

(** X13. A missing credential is not detected: when the environment lacks
    the token selected for the resolved branch, the request is sent all the
    same, with the header value [token undefined]. *)
Theorem missing_token_sent_as_undefined (w : World) (h : list event) (b : jsstring) :
  result_of (getCurrentBranch w h) = Return b ->
  token_for_branch (env w) b = None ->
  (forall o m, authorizations (calls_of (createPR o m w h)) = [js "token undefined"]) /\
  (forall o, authorizations (calls_of (createGitHubIssue o w h)) = [js "token undefined"]).
Proof.
  intros Hb Htoken.
  assert (expected_authorizations w h = [js "token undefined"]) as Hexp.
  { unfold expected_authorizations. rewrite Hb, Htoken, token_undefined. reflexivity. }
  split.
  - intros o m. rewrite createPR_authorizations. exact Hexp.
  - intros o. rewrite createGitHubIssue_authorizations. exact Hexp.
Qed.

Lemma missing_token_sent_as_undefined_witness :
  authorizations (calls_of (createGitHubIssue sample_issue no_token_world []))
  = [js "token undefined"].
Proof.
  apply (proj2 (missing_token_sent_as_undefined no_token_world [] (js "feature-x")
                  ltac:(vm_compute; reflexivity) ltac:(vm_compute; reflexivity))).
Defined.

(** X14. Once the branch is resolved each hosting operation sends exactly
    one request, a POST: [createPR] to the [pulls] endpoint of the
    repository with title, body, head and base as given; [createGitHubIssue]
    to the [issues] endpoint with title and body as given and the labels,
    or no label when none are given. *)
Theorem hosting_requests (w : World) (h : list event) (b : jsstring) :
  result_of (getCurrentBranch w h) = Return b ->
  (forall o m, exists req r,
     calls_of (createPR o m w h) =
       calls_of (getCurrentBranch w h) ++
       [EvFetch (js "https://api.github.com/repos/" ++ pr_owner o ++ js "/"
                   ++ pr_repo o ++ js "/pulls") req r] /\
     req_method req = js "POST" /\
     req_body req = PullPayload (title m) (body m) (pr_head o) (pr_base o)) /\
  (forall o, exists req r,
     calls_of (createGitHubIssue o w h) =
       calls_of (getCurrentBranch w h) ++
       [EvFetch (js "https://api.github.com/repos/" ++ is_owner o ++ js "/"
                   ++ is_repo o ++ js "/issues") req r] /\
     req_method req = js "POST" /\
     req_body req =
       IssuePayload (is_title o) (is_body o)
         (match is_labels o with Some labels => labels | None => [] end)).
Proof.
  intros Hb. split.
  - intros o m. revert Hb. unfold createPR. hosting_run w h;
      intros Hb; try discriminate Hb;
      eexists _, _; (split; [reflexivity|]); split; reflexivity.
  - intros o. revert Hb. unfold createGitHubIssue. hosting_run w h;
      intros Hb; try discriminate Hb;
      eexists _, _; (split; [reflexivity|]); split; reflexivity.
Qed.

Lemma hosting_requests_witness :
  exists req r,
    calls_of (createGitHubIssue sample_issue synced_world []) =
      calls_of (getCurrentBranch synced_world []) ++
      [EvFetch (js "https://api.github.com/repos/" ++ is_owner sample_issue ++ js "/"
                  ++ is_repo sample_issue ++ js "/issues") req r] /\
    req_method req = js "POST" /\
    req_body req = IssuePayload (js "Bug Report") (js "It fails") [].
Proof.
  exact (proj2 (hosting_requests synced_world [] (js "feature-x")
                  ltac:(vm_compute; reflexivity)) sample_issue).
Defined.

(** ** The whole workflow *)

Ltac into_workflow :=
  unfold createPRToMain;
  (apply reaches_try_catch; [|intros error; apply fails_throw]);
  apply reaches_bind_r; intros status; apply reaches_bind_r; intros _;
  apply reaches_bind_r; intros b.

Lemma createPRToMain_reaches_force_push :
  reaches (fun ev => exists out, ev = EvExec GIT_FORCE_PUSH (inr out)) createPRToMain.
Proof.
  into_workflow. apply reaches_bind_l. exact syncWithMain_reaches_force_push.
Qed.

Lemma createPRToMain_reaches_answer : reaches is_answer createPRToMain.
Proof.
  into_workflow. apply reaches_bind_r; intros _. apply reaches_bind_l.
  exact generatePRMessage_reaches_answer.
Qed.

Lemma createPRToMain_reaches_accepted : reaches is_accepted createPRToMain.
Proof.
  into_workflow. apply reaches_bind_r; intros _. apply reaches_bind_r; intros m.
  apply reaches_bind_l. apply createPR_reaches_accepted.
Qed.

(** X15. [createPRToMain] returns normally only from a run in which every
    call succeeded, the rebased branch was force-pushed, the model answered
    and the hosting API accepted the request. *)
Theorem createPRToMain_success (w : World) (h : list event) :
  result_of (createPRToMain w h) = Return tt ->
  Forall succeeded (calls_of (createPRToMain w h)) /\
  Exists (fun ev => exists out, ev = EvExec GIT_FORCE_PUSH (inr out))
         (calls_of (createPRToMain w h)) /\
  Exists is_answer (calls_of (createPRToMain w h)) /\
  Exists is_accepted (calls_of (createPRToMain w h)).
Proof.
  intros Hr. split; [exact (createPRToMain_clean w h tt Hr)|].
  split; [exact (createPRToMain_reaches_force_push w h tt Hr)|].
  split; [exact (createPRToMain_reaches_answer w h tt Hr)|].
  exact (createPRToMain_reaches_accepted w h tt Hr).
Qed.

Lemma createPRToMain_success_witness :
  Exists is_accepted (calls_of (createPRToMain clean_tree_world [])).
Proof.
  apply (createPRToMain_success clean_tree_world []).
  vm_compute. reflexivity.
Defined.

(** X16. [createPRToMain] is fail-fast: apart from the abort command of the
    rebase handler, a call is issued only when every earlier call of the run
    succeeded.  In particular the model is asked, and the hosting API
    contacted, only after everything before has succeeded. *)
Theorem createPRToMain_fails_fast (w : World) (h : list event)
    (t1 t2 : list event) (ev : event) :
  calls_of (createPRToMain w h) = t1 ++ ev :: t2 ->
  (~ runs GIT_REBASE_ABORT ev -> Forall succeeded t1) /\
  (is_remote ev -> Forall succeeded t1).
Proof.
  intros Ht. split.
  - exact (createPRToMain_fail_fast w h t1 ev t2 Ht).
  - intros Hremote. apply (createPRToMain_fail_fast w h t1 ev t2 Ht).
    intros [r ->]. exact Hremote.
Qed.

Lemma createPRToMain_fails_fast_witness :
  Forall succeeded (take 3 (calls_of (createPRToMain clean_tree_world []))).
Proof.
  apply (proj1 (createPRToMain_fails_fast clean_tree_world []
                  (take 3 (calls_of (createPRToMain clean_tree_world [])))
                  (drop 4 (calls_of (createPRToMain clean_tree_world [])))
                  (EvExec (GIT_PUSH_ORIGIN (js "feature-x")) (inr []))
                  ltac:(vm_compute; reflexivity))).
  intros [r H]. js_discriminate.
Defined.

Section Unrolling.

Context {A B : Type}.

Lemma calls_bind (m : M A) (k : A -> M B) (w : World) (h : list event) :
  calls_of ((m ≫= k) w h) =
  calls_of (m w h) ++
  match result_of (m w h) with
  | Return a => calls_of (k a w (h ++ calls_of (m w h)))
  | Throw _ => []
  end.
Proof.
  rewrite bind_run. unfold calls_of, result_of.
  destruct (m w h) as [[a|e] t]; simpl; [reflexivity | symmetry; apply app_nil_r].
Qed.

Lemma result_bind (m : M A) (k : A -> M B) (w : World) (h : list event) :
  result_of ((m ≫= k) w h) =
  match result_of (m w h) with
  | Return a => result_of (k a w (h ++ calls_of (m w h)))
  | Throw e => Throw e
  end.
Proof.
  rewrite bind_run. unfold calls_of, result_of.
  destruct (m w h) as [[a|e] t]; reflexivity.
Qed.

End Unrolling.

Lemma calls_execSync (cmd : jsstring) (w : World) (h : list event) :
  calls_of (execSync cmd w h) = [EvExec cmd (sh w h cmd)].
Proof. reflexivity. Qed.

Lemma result_execSync (cmd : jsstring) (w : World) (h : list event) :
  result_of (execSync cmd w h) = of_sum (sh w h cmd).
Proof. reflexivity. Qed.

(** What a command line is not. *)
Ltac other_command :=
  let r := fresh in
  let H := fresh in
  intros [r H]; first [discriminate H | js_discriminate].

Lemma after_status_no_commit (w : World) (h : list event) :
  Forall (fun ev => ~ runs GIT_ADD ev /\ ~ runs GIT_COMMIT ev)
    (calls_of
       ((currentBranch ← getCurrentBranch;
         _ ← syncWithMain;
         prMessage ← generatePRMessage;
         _ ← createPR
               {| pr_owner := js "modern-realty-inc";
                  pr_repo := js "plug-chat";
                  pr_head := currentBranch;
                  pr_base := js "main" |}
               prMessage;
         mret tt) w h)).
Proof.
  revert w h.
  change (emits (fun ev => ~ runs GIT_ADD ev /\ ~ runs GIT_COMMIT ev)
            (currentBranch ← getCurrentBranch;
             _ ← syncWithMain;
             prMessage ← generatePRMessage;
             _ ← createPR
                   {| pr_owner := js "modern-realty-inc";
                      pr_repo := js "plug-chat";
                      pr_head := currentBranch;
                      pr_base := js "main" |}
                   prMessage;
             mret tt)).
  unfold syncWithMain, generatePRMessage, createPR, getCurrentBranch.
  repeat emits_step ltac:(split; other_command).
Qed.

(** X17. The convenience commit.  [createPRToMain] begins with the status
    query and passes its failure on.  On a clean tree (empty status) it
    never runs [git add] or [git commit].  On a dirty tree the next calls
    are [git add .], [git commit -m "sync"] and the force-push with lease,
    in this order, each issued only if the one before succeeded; the first
    that fails ends the run with its error. *)
Theorem convenience_commit (w : World) (h : list event) :
  (forall e, sh w h GIT_STATUS = inl e ->
     createPRToMain w h = (Throw e, [EvExec GIT_STATUS (inl e)])) /\
  (sh w h GIT_STATUS = inr [] ->
     exists rest,
       calls_of (createPRToMain w h) = EvExec GIT_STATUS (inr []) :: rest /\
       Forall (fun ev => ~ runs GIT_ADD ev /\ ~ runs GIT_COMMIT ev) rest) /\
  (forall out, sh w h GIT_STATUS = inr out -> out <> [] ->
     exists ra rc rp rest,
       calls_of (createPRToMain w h) =
         EvExec GIT_STATUS (inr out) :: EvExec GIT_ADD ra ::
         match ra with
         | inl _ => []
         | inr _ =>
             EvExec GIT_COMMIT rc ::
             match rc with
             | inl _ => []
             | inr _ =>
                 EvExec GIT_FORCE_PUSH rp ::
                 match rp with
                 | inl _ => []
                 | inr _ => rest
                 end
             end
         end /\
       match ra, rc, rp with
       | inl e, _, _ | inr _, inl e, _ | inr _, inr _, inl e =>
           result_of (createPRToMain w h) = Throw e
       | inr _, inr _, inr _ => True
       end).
Proof.
  split; [|split].
  - intros e Hs. unfold createPRToMain. rewrite try_catch_rethrow, bind_run.
    unfold execSync at 1. fold GIT_STATUS. rewrite Hs. reflexivity.
  - intros Hs. unfold createPRToMain. rewrite try_catch_rethrow, calls_bind.
    rewrite calls_execSync, result_execSync. fold GIT_STATUS. rewrite Hs.
    cbv beta iota delta [of_sum truthy]. rewrite calls_bind.
    eexists. split; [reflexivity|]. apply after_status_no_commit.
  - intros out Hs Hout.
    remember (calls_of (createPRToMain w h)) as calls eqn:Hcalls.
    remember (result_of (createPRToMain w h)) as res eqn:Hres.
    unfold createPRToMain in Hcalls, Hres.
    rewrite try_catch_rethrow in Hcalls, Hres.
    rewrite calls_bind, calls_execSync, result_execSync in Hcalls.
    rewrite result_bind, calls_execSync, result_execSync in Hres.
    fold GIT_STATUS in Hcalls, Hres. rewrite Hs in Hcalls, Hres.
    destruct out as [|c out]; [congruence|].
    cbv beta iota delta [of_sum truthy] in Hcalls, Hres.
    rewrite !calls_bind, !result_bind, !calls_execSync, !result_execSync in Hcalls.
    rewrite !result_bind, !calls_execSync, !result_execSync in Hres.
    fold GIT_ADD GIT_COMMIT GIT_FORCE_PUSH in Hcalls, Hres.
    match type of Hcalls with
    | context [EvExec GIT_ADD ?ra] =>
        exists ra; destruct ra as [ea|oa]; simpl in Hcalls, Hres
    end; [exists (inl ea), (inl ea), []; split; assumption|].
    match type of Hcalls with
    | context [EvExec GIT_COMMIT ?rc] =>
        exists rc; destruct rc as [ec|oc]; simpl in Hcalls, Hres
    end; [exists (inl ec), []; split; assumption|].
    match type of Hcalls with
    | context [EvExec GIT_FORCE_PUSH ?rp] =>
        exists rp; destruct rp as [ep|op]; simpl in Hcalls, Hres
    end; [exists []; split; assumption|].
    eexists. split; [exact Hcalls | exact I].
Qed.

Lemma convenience_commit_witness :
  exists rest,
    calls_of (createPRToMain clean_tree_world []) = EvExec GIT_STATUS (inr []) :: rest /\
    Forall (fun ev => ~ runs GIT_ADD ev /\ ~ runs GIT_COMMIT ev) rest.
Proof.
  apply (proj1 (proj2 (convenience_commit clean_tree_world []))).
  vm_compute. reflexivity.
Defined.

Lemma plug_chat_url :
  js "https://api.github.com/repos/" ++ js "modern-realty-inc" ++ js "/"
    ++ js "plug-chat" ++ js "/pulls" = PLUG_CHAT_PULLS.
Proof. vm_compute. reflexivity. Qed.

(** One of the disjuncts of [workflow_call] holds. *)
Ltac known_call :=
  first
    [ eexists; reflexivity
    | eexists; eexists; reflexivity
    | eexists _, _, _, _, _; simpl; rewrite plug_chat_url;
      split; [reflexivity | split; reflexivity] ].

Ltac pick_call := first [ left; known_call | right; pick_call | known_call ].

Lemma createPRToMain_vocabulary : emits workflow_call createPRToMain.
Proof.
  unfold createPRToMain, syncWithMain, generatePRMessage, createPR, getCurrentBranch.
  repeat emits_step ltac:(unfold workflow_call; pick_call).
Qed.

(** X18. The calls [createPRToMain] can issue are ten git command lines
    (status, add, commit, the two pushes, branch query, fetch, rebase, abort,
    diff), the request to the model, and a POST to the [pulls] endpoint of
    one fixed repository with base [main]: it runs no command line of
    another shape and contacts no other endpoint. *)
Theorem createPRToMain_calls (w : World) (h : list event) :
  Forall workflow_call (calls_of (createPRToMain w h)).
Proof. exact (createPRToMain_vocabulary w h). Qed.

Lemma no_fetch_in (t : list event) (url : jsstring) (req : http_request)
    (r : js_error + http_response) :
  Forall no_fetch t -> ~ In (EvFetch url req r) t.
Proof.
  intros Ht Hin. apply list_elem_of_In in Hin. rewrite Forall_forall in Ht.
  exact (Ht _ Hin url req r eq_refl).
Qed.

Ltac no_fetch_side := intros ? ? ?; discriminate.

Lemma getCurrentBranch_no_fetch : emits no_fetch getCurrentBranch.
Proof. unfold getCurrentBranch. repeat emits_step no_fetch_side. Qed.

Lemma syncWithMain_no_fetch : emits no_fetch syncWithMain.
Proof. unfold syncWithMain, getCurrentBranch. repeat emits_step no_fetch_side. Qed.

Lemma generatePRMessage_no_fetch : emits no_fetch generatePRMessage.
Proof. unfold generatePRMessage. repeat emits_step no_fetch_side. Qed.

Lemma createPR_fetch_shape (o : PullRequestOptions) (m : generated_message)
    (w : World) (h : list event) (url : jsstring) (req : http_request)
    (r : js_error + http_response) :
  In (EvFetch url req r) (calls_of (createPR o m w h)) ->
  url = js "https://api.github.com/repos/" ++ pr_owner o ++ js "/" ++ pr_repo o ++ js "/pulls" /\
  req_body req = PullPayload (title m) (body m) (pr_head o) (pr_base o).
Proof.
  pose proof (getCurrentBranch_calls w h) as T.
  unfold createPR. hosting_run w h; intros Hin;
    first [ in_trace Hin T; injection Hin as <- <- _; split; reflexivity
          | apply T in Hin; destruct Hin as [? Hin]; discriminate Hin ].
Qed.

(** The stages of a run before the request fail without any request. *)
Ltac dead_stage Hcalls :=
  let Hin := fresh "Hin" in
  intros Hin; rewrite Hcalls in Hin;
  repeat (apply in_app_or in Hin; destruct Hin as [Hin|Hin]);
  solve [ destruct Hin
        | exfalso; eapply no_fetch_in; [|exact Hin]; assumption ].

(** X19. What [createPRToMain] posts.  Every request it sends goes to the
    [pulls] endpoint of the fixed repository; its head is the branch that
    the workflow's own first resolution returned, before syncing; its base
    is [main]; its title and body are those of the message generated in
    this run. *)
Theorem posted_pull_request (w : World) (h : list event) (url : jsstring)
    (req : http_request) (r : js_error + http_response) :
  In (EvFetch url req r) (calls_of (createPRToMain w h)) ->
  exists t0 b pre m,
    result_of (getCurrentBranch w (h ++ t0)) = Return b /\
    (exists rest, calls_of (createPRToMain w h) =
                  t0 ++ calls_of (getCurrentBranch w (h ++ t0)) ++ rest) /\
    Forall (fun ev => ~ runs GIT_BRANCH_QUERY ev) t0 /\
    result_of (generatePRMessage w (h ++ pre)) = Return m /\
    (exists post, calls_of (createPRToMain w h) =
                  pre ++ calls_of (generatePRMessage w (h ++ pre)) ++ post) /\
    url = PLUG_CHAT_PULLS /\
    req_body req = PullPayload (title m) (body m) b (js "main").
Proof.
  remember (calls_of (createPRToMain w h)) as calls eqn:Hcalls.
  unfold createPRToMain in Hcalls. rewrite try_catch_rethrow in Hcalls.
  (* the status query *)
  rewrite calls_bind in Hcalls.
  assert (emits (fun ev => no_fetch ev /\ ~ runs GIT_BRANCH_QUERY ev)
            (execSync (js "git status --porcelain"))) as E1
    by (repeat emits_step ltac:(split; [no_fetch_side | other_command])).
  specialize (E1 w h). apply Forall_and in E1 as [F1 Q1].
  set (t1 := calls_of (execSync (js "git status --porcelain") w h)) in *.
  clearbody t1.
  destruct (result_of (execSync (js "git status --porcelain") w h)) as [status|e];
    [|dead_stage Hcalls].
  (* the convenience commit *)
  rewrite calls_bind in Hcalls.
  match type of Hcalls with
  | context [calls_of (?M w ?hh)] =>
      assert (emits (fun ev => no_fetch ev /\ ~ runs GIT_BRANCH_QUERY ev) M) as E2
        by (repeat emits_step ltac:(split; [no_fetch_side | other_command]));
      specialize (E2 w hh); apply Forall_and in E2 as [F2 Q2];
      set (t2 := calls_of (M w hh)) in *; clearbody t2;
      destruct (result_of (M w hh)) as [[]|e]; [|dead_stage Hcalls]
  end.
  (* the branch *)
  rewrite calls_bind in Hcalls. repeat rewrite <- app_assoc in Hcalls.
  pose proof (getCurrentBranch_no_fetch w (h ++ t1 ++ t2)) as F3.
  destruct (result_of (getCurrentBranch w (h ++ t1 ++ t2))) as [b|e] eqn:Hb;
    [|dead_stage Hcalls].
  set (tb := calls_of (getCurrentBranch w (h ++ t1 ++ t2))) in *.
  (* the sync *)
  rewrite calls_bind in Hcalls. repeat rewrite <- app_assoc in Hcalls.
  pose proof (syncWithMain_no_fetch w (h ++ t1 ++ t2 ++ tb)) as F4.
  destruct (result_of (syncWithMain w (h ++ t1 ++ t2 ++ tb))) as [[]|e];
    [|dead_stage Hcalls].
  set (ts := calls_of (syncWithMain w (h ++ t1 ++ t2 ++ tb))) in *.
  (* the message *)
  rewrite calls_bind in Hcalls. repeat rewrite <- app_assoc in Hcalls.
  pose proof (generatePRMessage_no_fetch w (h ++ t1 ++ t2 ++ tb ++ ts)) as F5.
  destruct (result_of (generatePRMessage w (h ++ t1 ++ t2 ++ tb ++ ts)))
    as [m|e] eqn:Hm; [|dead_stage Hcalls].
  set (tm := calls_of (generatePRMessage w (h ++ t1 ++ t2 ++ tb ++ ts))) in *.
  (* the request *)
  rewrite calls_bind in Hcalls. repeat rewrite <- app_assoc in Hcalls.
  match type of Hcalls with
  | context [calls_of (createPR ?o m w ?hh)] =>
      pose proof (createPR_fetch_shape o m w hh url req r) as Hshape;
      destruct (result_of (createPR o m w hh))
  end;
  try match type of Hcalls with
      | context [calls_of (mret () w ?x)] =>
          change (calls_of (mret () w x)) with (@nil event) in Hcalls
      end;
  rewrite app_nil_r in Hcalls;
  intros Hin;
  (assert (url = PLUG_CHAT_PULLS /\
           req_body req = PullPayload (title m) (body m) b (js "main")) as [Hurl Hbody]
     by (rewrite <- plug_chat_url; apply Hshape;
         rewrite Hcalls in Hin;
         repeat (apply in_app_or in Hin; destruct Hin as [Hin|Hin];
                 [exfalso; eapply no_fetch_in; [|exact Hin]; assumption|]);
         exact Hin));
  exists (t1 ++ t2), b, (t1 ++ t2 ++ tb ++ ts), m;
  (split; [exact Hb|]);
  (split; [eexists; rewrite Hcalls; apply app_assoc|]);
  (split; [apply Forall_app; split; assumption|]);
  (split; [exact Hm|]);
  (split; [eexists; rewrite Hcalls; repeat rewrite <- app_assoc; reflexivity|]);
  split; assumption.
Qed.

Lemma posted_pull_request_witness :
  exists t0 b pre m,
    result_of (getCurrentBranch clean_tree_world ([] ++ t0)) = Return b /\
    (exists rest, calls_of (createPRToMain clean_tree_world []) =
                  t0 ++ calls_of (getCurrentBranch clean_tree_world ([] ++ t0)) ++ rest) /\
    Forall (fun ev => ~ runs GIT_BRANCH_QUERY ev) t0 /\
    result_of (generatePRMessage clean_tree_world ([] ++ pre)) = Return m /\
    (exists post, calls_of (createPRToMain clean_tree_world []) =
                  pre ++ calls_of (generatePRMessage clean_tree_world ([] ++ pre)) ++ post) /\
    PLUG_CHAT_PULLS = PLUG_CHAT_PULLS /\
    PullPayload (js "Add login flow") [] (js "feature-x") (js "main")
    = PullPayload (title m) (body m) b (js "main").
Proof.
  apply (posted_pull_request clean_tree_world [] PLUG_CHAT_PULLS
           {| req_method := js "POST";
              req_headers :=
                [ (js "Accept", js "application/vnd.github.v3+json");
                  (js "Authorization", js "token default-token");
                  (js "Content-Type", js "application/json") ];
              req_body :=
                PullPayload (js "Add login flow") [] (js "feature-x") (js "main") |}
           (inr (created (js "7")))).
  vm_compute. do 10 right. left. reflexivity.
Defined.

(** ** Run as a script *)

(** X20. Run as a script: without [--sync] among the arguments nothing is
    executed; with it, the calls are those of [syncWithMain], and the process
    is made to exit with status 1 exactly when the sync throws, that is,
    unless the force-push with lease succeeded. *)
Theorem script_exit (argv : list jsstring) (w : World) (h : list event) :
  (~ In (js "--sync") argv -> script argv w h = (None, [])) /\
  (In (js "--sync") argv ->
     snd (script argv w h) = calls_of (syncWithMain w h) /\
     (fst (script argv w h) = Some 1 <->
      exists e, result_of (syncWithMain w h) = Throw e) /\
     (fst (script argv w h) = None <->
      exists out, In (EvExec GIT_FORCE_PUSH (inr out)) (calls_of (syncWithMain w h)))).
Proof.
  unfold script. split; intros Hflag.
  - rewrite bool_decide_eq_false_2; [reflexivity|].
    intros H. apply Hflag, list_elem_of_In, H.
  - rewrite bool_decide_eq_true_2 by (apply list_elem_of_In, Hflag).
    sync_cases w h R T t; simpl;
      try (destruct a; simpl);
      (split; [reflexivity|]); (split; split);
      try discriminate; try (intros _; eexists; reflexivity);
      try (intros [? ?]; discriminate);
      try (intros [out Hin];
           first [ apply T in Hin; destruct Hin as [? Hin]; js_discriminate
                 | in_trace Hin T ]).
    intros _. exists o4. apply in_or_app. right. simpl. auto.
Qed.

Lemma script_exit_witness :
  script [js "node"; js "createPullRequest.js"] conflict_world [] = (None, []) /\
  fst (script [js "node"; js "createPullRequest.js"; js "--sync"] conflict_world [])
  = Some 1.
Proof.
  split.
  - apply (proj1 (script_exit _ conflict_world [])).
    intros [H|[H|[]]]; vm_compute in H; discriminate H.
  - apply (proj2 (script_exit _ conflict_world [])).
    + right. right. left. reflexivity.
    + vm_compute. eexists. reflexivity.
Defined.

(** ** The resolved branch name *)

(** X21. The name [getCurrentBranch] returns: in a deployment environment
    it is the non-empty value of [VERCEL_GIT_COMMIT_REF], as it is; otherwise
    it is the output of the branch query with the white space at both ends
    removed, so trimming it again changes nothing. *)
Theorem resolved_branch_shape (w : World) (h : list event) (b : jsstring) :
  result_of (getCurrentBranch w h) = Return b ->
  (truthy (env w !! "VERCEL") = true ->
     env w !! "VERCEL_GIT_COMMIT_REF" = Some b /\ b <> []) /\
  (truthy (env w !! "VERCEL") = false ->
     (exists out, sh w h GIT_BRANCH_QUERY = inr out /\ b = trim out) /\
     trim b = b).
Proof.
  intros Hb. split; intros Hv.
  - rewrite (getCurrentBranch_vercel w h Hv) in Hb. unfold result_of in Hb. simpl in Hb.
    destruct (env w !! "VERCEL_GIT_COMMIT_REF") as [[|c v]|]; simpl in Hb;
      try discriminate Hb.
    injection Hb as <-. split; [reflexivity | discriminate].
  - rewrite (getCurrentBranch_git w h Hv) in Hb. unfold result_of in Hb. simpl in Hb.
    destruct (sh w h GIT_BRANCH_QUERY) as [e|out]; [discriminate Hb|].
    injection Hb as <-. split; [exists out; split; reflexivity | apply trim_trim].
Qed.

Lemma resolved_branch_shape_witness :
  trim (js "feature-x") = js "feature-x".
Proof.
  assert (result_of (getCurrentBranch clean_tree_world []) = Return (js "feature-x"))
    as Hb by (vm_compute; reflexivity).
  apply (proj2 (resolved_branch_shape clean_tree_world [] (js "feature-x") Hb)).
  vm_compute. reflexivity.
Defined.
